(** * Claim records (lib/primitives/claim.js)

    A shallow embedding of the [Claim] class of hskd and of the pieces of
    its collaborators that the class touches: Node buffers, the bufio
    reader and writer, the blake2b digest, the ownership-proof codec and
    the transaction builder.  Methods that mutate [this] or may throw are
    written in a small state-and-exception monad; the others are plain
    functions. *)

From Stdlib Require Import ZArith String Ascii Bool Lia List.
From Stdlib Require Import Strings.Byte.
Import ListNotations.
Open Scope Z_scope.

(** ** Buffers *)

Definition bytes := list byte.

Definition len (b : bytes) : Z := Z.of_nat (List.length b).

Definition byte_to_Z (b : byte) : Z := Z.of_N (Byte.to_N b).

Definition byte_of_Z (z : Z) : byte :=
  match Byte.of_N (Z.to_N (z mod 256)) with
  | Some b => b
  | None => x00
  end.

(** Little-endian integers, as [readUIntLE] and [writeUIntLE] of a Buffer. *)
Fixpoint readUIntLE (b : bytes) : Z :=
  match b with
  | [] => 0
  | x :: r => byte_to_Z x + 256 * readUIntLE r
  end.

Fixpoint writeUIntLE (n : nat) (w : Z) : bytes :=
  match n with
  | O => []
  | S k => byte_of_Z w :: writeUIntLE k (w / 256)
  end.

Definition hex_digit (n : Z) : ascii :=
  if n <? 10 then ascii_of_N (Z.to_N (48 + n))
  else ascii_of_N (Z.to_N (87 + n)).

(** [buf.toString('hex')]: two lower-case digits per byte. *)
Fixpoint toString_hex (b : bytes) : string :=
  match b with
  | [] => EmptyString
  | x :: r =>
      String (hex_digit (byte_to_Z x / 16))
        (String (hex_digit (byte_to_Z x mod 16)) (toString_hex r))
  end.

(** JavaScript's [x | 0]: the integer taken modulo 2^32 into the signed
    32-bit range. *)
Definition to_int32 (z : Z) : Z :=
  let m := z mod 2 ^ 32 in
  if m <? 2 ^ 31 then m else m - 2 ^ 32.

(** ** The content hash *)

(** Modelled from the spec: the hash primitive [digest(bytes) -> fixed-size
    binary] is bcrypto's [blake2b.digest], a library outside this
    repository.  It is BLAKE2b (RFC 7693) with no key and, by default, a
    32-byte output. *)
Module Blake2b.

Definition mask64 : Z := 2 ^ 64 - 1.

Definition add64 (a b : Z) : Z := Z.land (a + b) mask64.

Definition rotr64 (x : Z) (n : Z) : Z :=
  Z.land (Z.lor (Z.shiftr x n) (Z.shiftl x (64 - n))) mask64.

Definition IV : list Z :=
  [ 0x6a09e667f3bcc908; 0xbb67ae8584caa73b;
    0x3c6ef372fe94f82b; 0xa54ff53a5f1d36f1;
    0x510e527fade682d1; 0x9b05688c2b3e6c1f;
    0x1f83d9abfb41bd6b; 0x5be0cd19137e2179 ].

Definition SIGMA : list (list nat) :=
  ([ [0; 1; 2; 3; 4; 5; 6; 7; 8; 9; 10; 11; 12; 13; 14; 15];
     [14; 10; 4; 8; 9; 15; 13; 6; 1; 12; 0; 2; 11; 7; 5; 3];
     [11; 8; 12; 0; 5; 2; 15; 13; 10; 14; 3; 6; 7; 1; 9; 4];
     [7; 9; 3; 1; 13; 12; 11; 14; 2; 6; 5; 10; 4; 0; 15; 8];
     [9; 0; 5; 7; 2; 4; 10; 15; 14; 1; 11; 12; 6; 8; 3; 13];
     [2; 12; 6; 10; 0; 11; 8; 3; 4; 13; 7; 5; 15; 14; 1; 9];
     [12; 5; 1; 15; 14; 13; 4; 10; 0; 7; 6; 3; 9; 2; 8; 11];
     [13; 11; 7; 14; 12; 1; 3; 9; 5; 0; 15; 4; 8; 6; 2; 10];
     [6; 15; 14; 9; 11; 3; 0; 8; 12; 2; 13; 7; 1; 4; 10; 5];
     [10; 2; 8; 4; 7; 6; 1; 5; 15; 11; 9; 14; 3; 12; 13; 0];
     [0; 1; 2; 3; 4; 5; 6; 7; 8; 9; 10; 11; 12; 13; 14; 15];
     [14; 10; 4; 8; 9; 15; 13; 6; 1; 12; 0; 2; 11; 7; 5; 3] ])%nat.

Definition get (v : list Z) (i : nat) : Z := nth i v 0.

Fixpoint set (v : list Z) (i : nat) (x : Z) : list Z :=
  match v, i with
  | [], _ => []
  | _ :: r, O => x :: r
  | y :: r, S j => y :: set r j x
  end.

(** The mixing function G on the working vector. *)
Definition G (v : list Z) (a b c d : nat) (x y : Z) : list Z :=
  let va := add64 (add64 (get v a) (get v b)) x in
  let vd := rotr64 (Z.lxor (get v d) va) 32 in
  let vc := add64 (get v c) vd in
  let vb := rotr64 (Z.lxor (get v b) vc) 24 in
  let va := add64 (add64 va vb) y in
  let vd := rotr64 (Z.lxor vd va) 16 in
  let vc := add64 vc vd in
  let vb := rotr64 (Z.lxor vb vc) 63 in
  set (set (set (set v a va) b vb) c vc) d vd.

Definition round (m : list Z) (v : list Z) (s : list nat) : list Z :=
  let w i := get m (nth i s O) in
  let v := G v 0 4 8 12 (w 0%nat) (w 1%nat) in
  let v := G v 1 5 9 13 (w 2%nat) (w 3%nat) in
  let v := G v 2 6 10 14 (w 4%nat) (w 5%nat) in
  let v := G v 3 7 11 15 (w 6%nat) (w 7%nat) in
  let v := G v 0 5 10 15 (w 8%nat) (w 9%nat) in
  let v := G v 1 6 11 12 (w 10%nat) (w 11%nat) in
  let v := G v 2 7 8 13 (w 12%nat) (w 13%nat) in
  G v 3 4 9 14 (w 14%nat) (w 15%nat).

Fixpoint xor3 (h v w : list Z) : list Z :=
  match h, v, w with
  | a :: h', b :: v', c :: w' => Z.lxor (Z.lxor a b) c :: xor3 h' v' w'
  | _, _, _ => []
  end.

(** The compression function F: [t] is the byte counter, [last] the
    finalisation flag. *)
Definition compress (h : list Z) (m : list Z) (t : Z) (last : bool) : list Z :=
  let v := h ++ IV in
  let v := set v 12 (Z.lxor (get v 12) (Z.land t mask64)) in
  let v := set v 13 (Z.lxor (get v 13) (Z.shiftr t 64)) in
  let v := if last then set v 14 (Z.lxor (get v 14) mask64) else v in
  let v := fold_left (round m) SIGMA v in
  xor3 h (firstn 8 v) (skipn 8 v).

Fixpoint words (n : nat) (b : bytes) : list Z :=
  match n with
  | O => []
  | S k => readUIntLE (firstn 8 b) :: words k (skipn 8 b)
  end.

Definition pad (b : bytes) : bytes := b ++ repeat x00 (128 - List.length b).

(** Absorbs the message in 128-byte blocks; the last block, which may be
    empty or full, is padded and compressed with the final flag.  [fuel]
    bounds the number of blocks. *)
Fixpoint absorb (fuel : nat) (h : list Z) (t : Z) (b : bytes) : list Z :=
  match fuel with
  | O => h
  | S k =>
      if (List.length b <=? 128)%nat
      then compress h (words 16 (pad b)) (t + len b) true
      else absorb k (compress h (words 16 (firstn 128 b)) (t + 128) false)
                  (t + 128) (skipn 128 b)
  end.

Definition hash (outlen : nat) (data : bytes) : bytes :=
  let h0 := set IV 0 (Z.lxor (get IV 0) (Z.lxor 0x01010000 (Z.of_nat outlen))) in
  let h := absorb (S (List.length data / 128)) h0 0 data in
  firstn outlen (flat_map (writeUIntLE 8) h).

Definition digest (data : bytes) : bytes := hash 32 data.

End Blake2b.

Arguments Blake2b.digest : simpl never.

(** ** Exceptions and mutable state *)

Inductive error : Type :=
| EncodingError      (* bufio: read out of bounds, non-canonical or unsafe varint *)
| InvalidClaimSize   (* new Error('Invalid claim size.') *)
| AssertionError     (* a failed assert(...) *)
| ProofError.        (* thrown by OwnershipProof.decode *)

Inductive outcome (A : Type) : Type :=
| Return (a : A)
| Throw (e : error).

Arguments Return {A} a.
Arguments Throw {A} e.

(** A method run on a mutable object of type [S]: it returns or throws, and
    leaves the object in the state it had at that point. *)
Definition M (S A : Type) : Type := S -> outcome A * S.

Definition ret {S A} (a : A) : M S A := fun s => (Return a, s).

Definition throw {S A} (e : error) : M S A := fun s => (Throw e, s).

Definition bind {S A B} (m : M S A) (k : A -> M S B) : M S B :=
  fun s =>
    match m s with
    | (Return a, s') => k a s'
    | (Throw e, s') => (Throw e, s')
    end.

Declare Scope M_scope.
Delimit Scope M_scope with M.
Notation "x <- m ;; k" := (bind m (fun x => k))
  (at level 61, m at next level, right associativity) : M_scope.
Notation "m ;; k" := (bind m (fun _ => k))
  (at level 61, right associativity) : M_scope.
Open Scope M_scope.

Definition modify {S} (f : S -> S) : M S unit := fun s => (Return tt, f s).

(** [try { m } catch (e) { h }] *)
Definition try_catch {S A} (m : M S A) (h : error -> M S A) : M S A :=
  fun s =>
    match m s with
    | (Return a, s') => (Return a, s')
    | (Throw e, s') => h e s'
    end.

(** Running a method of one of two objects that are both in scope. *)
Definition on_fst {S T A} (m : M S A) : M (S * T) A :=
  fun st =>
    let (r, s') := m (fst st) in (r, (s', snd st)).

Definition on_snd {S T A} (m : M T A) : M (S * T) A :=
  fun st =>
    let (r, t') := m (snd st) in (r, (fst st, t')).

(** ** bufio *)

(** Modelled from the spec: the wire format is [varint(len) || bytes[len]]
    with the smallest encoding of the length; bufio, the library that
    reads and writes it, is outside this repository.  Its reader checks
    every read against the end of the data and rejects a length that is
    not in its smallest encoding. *)
Module bio.

Definition sizeVarint (n : Z) : Z :=
  if n <? 0xfd then 1
  else if n <=? 0xffff then 3
  else if n <=? 0xffffffff then 5
  else 9.

Definition sizeVarBytes (b : bytes) : Z := sizeVarint (len b) + len b.

(** The writer: the bytes written so far. *)
Definition BufferWriter : Type := bytes.

Definition write : BufferWriter := [].

Definition render (bw : BufferWriter) : bytes := bw.

Definition varint (n : Z) : bytes :=
  if n <? 0xfd then [byte_of_Z n]
  else if n <=? 0xffff then xfd :: writeUIntLE 2 n
  else if n <=? 0xffffffff then xfe :: writeUIntLE 4 n
  else xff :: writeUIntLE 8 n.

Definition writeVarint (n : Z) (bw : BufferWriter) : BufferWriter :=
  bw ++ varint n.

Definition writeBytes (b : bytes) (bw : BufferWriter) : BufferWriter :=
  bw ++ b.

Definition writeVarBytes (b : bytes) (bw : BufferWriter) : BufferWriter :=
  writeBytes b (writeVarint (len b) bw).

(** The reader: the data and the offset of the next byte. *)
Record BufferReader : Type := { data : bytes; offset : nat }.

Definition read (b : bytes) : BufferReader := {| data := b; offset := 0 |}.

Definition rest (br : BufferReader) : bytes := skipn (offset br) (data br).

Definition seek (n : nat) (br : BufferReader) : BufferReader :=
  {| data := data br; offset := offset br + n |}.

(** Reads a [width]-byte little-endian integer after the marker byte and
    accepts it when it is above [floor] (smallest encoding) and a safe
    integer. *)
Definition readWide (width : nat) (floor : Z) (after : bytes)
  : M BufferReader Z :=
  fun br =>
    if (width <=? List.length after)%nat then
      let value := readUIntLE (firstn width after) in
      if (value <? 2 ^ 53) && (floor <? value)
      then (Return value, seek (S width) br)
      else (Throw EncodingError, br)
    else (Throw EncodingError, br).

Definition readVarint : M BufferReader Z :=
  fun br =>
    match rest br with
    | [] => (Throw EncodingError, br)
    | b :: after =>
        let value := byte_to_Z b in
        if value =? 0xff then readWide 8 0xffffffff after br
        else if value =? 0xfe then readWide 4 0xffff after br
        else if value =? 0xfd then readWide 2 0xfc after br
        else (Return value, seek 1 br)
    end.

Definition readBytes (size : Z) : M BufferReader bytes :=
  fun br =>
    if (0 <=? size) && (size <? 2 ^ 32) && (size <=? len (rest br))
    then (Return (firstn (Z.to_nat size) (rest br)), seek (Z.to_nat size) br)
    else (Throw EncodingError, br).

End bio.

(** ** Ownership proofs, consensus and policy *)

Module ProofData.

(** What [proof.getData(network)] yields; [toTX] and [getFee] read these
    fields. *)
Record t : Type := {
  nameHash : bytes;
  nameRaw : bytes;
  version : Z;
  hash : bytes;
  value : Z;
  fee : Z;
  weak : bool;
  forked : bool
}.

End ProofData.

(** The modules that claim.js requires and that are not modelled further:
    the ownership-proof codec (covenants/ownership), the consensus and
    policy constants and functions, and the type tags of covenants and
    inventory items. *)
Class Collaborators : Type := {
  Network : Type;
  OwnershipProof : Type;
  (* new OwnershipProof() *)
  OwnershipProof_new : OwnershipProof;
  (* OwnershipProof.decode(blob) returns the proof or throws *)
  OwnershipProof_decode : bytes -> outcome OwnershipProof;
  (* proof.encode() *)
  OwnershipProof_encode : OwnershipProof -> bytes;
  (* proof.getData(network) returns the data or null *)
  OwnershipProof_getData : OwnershipProof -> Network -> option ProofData.t;
  (* consensus.WITNESS_SCALE_FACTOR *)
  WITNESS_SCALE_FACTOR : Z;
  (* policy.getMinFee(size, rate), policy.getRate(size, fee) *)
  policy_getMinFee : Z -> option Z -> Z;
  policy_getRate : Z -> Z -> Z;
  (* rules.types.CLAIM and rules.types.NONE *)
  types_CLAIM : Z;
  types_NONE : Z;
  (* InvItem.types.CLAIM *)
  InvItem_types_CLAIM : Z
}.

(** What [hash(enc)] returns: a Buffer, or a string under 'hex'. *)
Inductive hash_value : Type :=
| Raw (h : bytes)
| Hex (s : string).

(** ** Transactions

    The transaction, input, output and inventory classes
    (lib/primitives/tx.js, input.js, output.js, invitem.js and what they
    are made of) are not among the sources; each is reduced to the fields
    that claim.js touches.  Amounts are integers. *)

(** Modelled from the spec: the inventory item constructor
    [(kind, hexId) -> InventoryDescriptor]. *)
Module InvItem.
Record t : Type := { type : Z; hash : hash_value }.
End InvItem.

(** Modelled from the spec: the witness (proof field) of an input, a list
    of byte items, empty when new. *)
Module Witness.
Record t : Type := { items : list bytes }.
Definition new : t := {| items := [] |}.
End Witness.

(** Modelled from the spec: an input; a new one is the empty
    placeholder. *)
Module Input.
Record t : Type := { witness : Witness.t }.
Definition new : t := {| witness := Witness.new |}.
End Input.

(** Modelled from the spec: a destination address, a version and a hash;
    a new one is the empty destination. *)
Module Address.
Record t : Type := { version : Z; hash : bytes }.
Definition new : t := {| version := 0; hash := repeat x00 20 |}.
End Address.

(** Modelled from the spec: a covenant, a type tag and an ordered list of
    byte items; a new one has the type NONE and no items. *)
Module Covenant.
Record t : Type := { type : Z; items : list bytes }.
Definition new `{Collaborators} : t := {| type := types_NONE; items := [] |}.
End Covenant.

(** Modelled from the spec: an output; a new one is the placeholder of
    value zero, with the empty destination and no covenant. *)
Module Output.
Record t : Type := { value : Z; address : Address.t; covenant : Covenant.t }.
Definition new `{Collaborators} : t :=
  {| value := 0; address := Address.new; covenant := Covenant.new |}.
End Output.

(** Modelled from the spec: a transaction, an ordered list of inputs and
    of outputs with a cached identity that [refresh] resets. *)
Module TX.
Record t : Type := {
  inputs : list Input.t;
  outputs : list Output.t;
  _hash : option bytes
}.
Definition new : t := {| inputs := []; outputs := []; _hash := None |}.
Definition refresh (tx : t) : t :=
  {| inputs := inputs tx; outputs := outputs tx; _hash := None |}.
End TX.

(** ** The Claim class *)

Module Claim.

Record t : Type := {
  blob : bytes;
  _hash : option bytes;
  _hhash : option string;
  _data : option ProofData.t
}.

Definition EMPTY : bytes := [].

(** constructor() *)
Definition new : t :=
  {| blob := EMPTY; _hash := None; _hhash := None; _data := None |}.

Definition set_blob (b : bytes) (c : t) : t :=
  {| blob := b; _hash := _hash c; _hhash := _hhash c; _data := _data c |}.

Definition set_hhash (s : string) (c : t) : t :=
  {| blob := blob c; _hash := _hash c; _hhash := Some s; _data := _data c |}.

Definition set_data (d : ProofData.t) (c : t) : t :=
  {| blob := blob c; _hash := _hash c; _hhash := _hhash c; _data := Some d |}.

Definition refresh (c : t) : t :=
  {| blob := blob c; _hash := None; _hhash := None; _data := None |}.

Definition is_hex (enc : option string) : bool :=
  match enc with
  | Some e => String.eqb e "hex"
  | None => false
  end.

(** [_hash] and [_hhash] hold null or a value; a Buffer is truthy, a
    string is truthy unless it is empty. *)
Definition hash (enc : option string) : M t hash_value :=
  fun c =>
    let h :=
      match _hash c with
      | Some h => h
      | None => Blake2b.digest (blob c)
      end in
    if is_hex enc then
      match _hhash c with
      | Some (String a s) => (Return (Hex (String a s)), c)
      | Some EmptyString | None =>
          let hex := toString_hex h in
          (Return (Hex hex), set_hhash hex c)
      end
    else (Return (Raw h), c).

Definition getSize (c : t) : Z := bio.sizeVarBytes (blob c).

Definition write (c : t) (bw : bio.BufferWriter) : bio.BufferWriter :=
  bio.writeVarBytes (blob c) bw.

(** [read(br)] runs on [this] and on the reader. *)
Definition read : M (t * bio.BufferReader) unit :=
  size <- on_snd bio.readVarint ;;
  (if 10000 <? size then throw InvalidClaimSize else ret tt) ;;
  b <- on_snd (bio.readBytes size) ;;
  on_fst (modify (set_blob b)).

Definition getWeight (c : t) : Z := getSize c.

Definition toBlob (c : t) : bytes := blob c.

(** [assert(Buffer.isBuffer(blob))] holds by the type of [b]. *)
Definition fromBlob (b : bytes) (c : t) : t := set_blob b c.

(** bufio's [Struct] wrappers: [encode()] renders what [write] produces,
    the static [decode(data)] reads into a new instance. *)
Definition encode (c : t) : bytes := bio.render (write c bio.write).

Definition decode (data : bytes) : outcome t :=
  match read (new, bio.read data) with
  | (Return _, (c, _)) => Return c
  | (Throw e, _) => Throw e
  end.

Section WithCollaborators.

Context `{Collaborators}.

Definition toProof : M t OwnershipProof :=
  fun c => (OwnershipProof_decode (blob c), c).

Definition getProof : M t OwnershipProof :=
  try_catch toProof (fun _ => ret OwnershipProof_new).

(** A proof is an object, so the test [!proof] never succeeds; data, when
    not null, is an object and truthy. *)
Definition getData (network : Network) : M t (option ProofData.t) :=
  fun c =>
    match _data c with
    | Some data => (Return (Some data), c)
    | None =>
        (proof <- getProof ;;
         match OwnershipProof_getData proof network with
         | None => ret None
         | Some data =>
             modify (set_data data) ;;
             ret (Some data)
         end) c
    end.

Definition getNameHash (network : Network) : M t (option bytes) :=
  data <- getData network ;;
  match data with
  | None => ret None
  | Some data => ret (Some (ProofData.nameHash data))
  end.

Definition toInv : M t InvItem.t :=
  h <- hash (Some "hex"%string) ;;
  ret {| InvItem.type := InvItem_types_CLAIM; InvItem.hash := h |}.

(** [(weight + scale - 1) / scale | 0]: the quotient of two numbers,
    truncated to a 32-bit integer. *)
Definition getVirtualSize (c : t) : Z :=
  let scale := WITNESS_SCALE_FACTOR in
  to_int32 (Z.quot (getWeight c + scale - 1) scale).

Definition getMinFee (size : option Z) (rate : option Z) (c : t) : Z :=
  let size :=
    match size with
    | None => getVirtualSize c
    | Some size => size
    end in
  policy_getMinFee size rate.

Definition getFee (network : Network) : M t Z :=
  data <- getData network ;;
  match data with
  | None => throw AssertionError
  | Some data => ret (ProofData.fee data)
  end.

Definition getRate (size : option Z) (network : Network) : M t Z :=
  fee <- getFee network ;;
  fun c =>
    let size :=
      match size with
      | None => getVirtualSize c
      | Some size => size
      end in
    (Return (policy_getRate size fee), c).

(** The status byte of [toTX]: [flags |= 1] when weak, [flags |= 2] when
    forked. *)
Definition flags_of (data : ProofData.t) : Z :=
  let flags := 0 in
  let flags := if ProofData.weak data then Z.lor flags 1 else flags in
  let flags := if ProofData.forked data then Z.lor flags 2 else flags in
  flags.

Definition toTX (network : Network) : M t TX.t :=
  data <- getData network ;;
  match data with
  | None => throw AssertionError
  | Some data =>
      fun c =>
        let inputs := TX.inputs TX.new ++ [Input.new] in
        let outputs := TX.outputs TX.new ++ [Output.new] in
        let input :=
          {| Input.witness :=
               {| Witness.items :=
                    Witness.items (Input.witness Input.new) ++ [blob c] |} |} in
        let value :=
          if ProofData.forked data then 0
          else ProofData.value data - ProofData.fee data in
        let address :=
          {| Address.version := ProofData.version data;
             Address.hash := ProofData.hash data |} in
        let flags := flags_of data in
        let covenant :=
          {| Covenant.type := types_CLAIM;
             Covenant.items :=
               Covenant.items (Output.covenant Output.new)
                 ++ [ProofData.nameHash data]
                 ++ [ProofData.nameRaw data]
                 ++ [[byte_of_Z flags]] |} in
        let output :=
          {| Output.value := value;
             Output.address := address;
             Output.covenant := covenant |} in
        let tx :=
          {| TX.inputs := inputs ++ [input];
             TX.outputs := outputs ++ [output];
             TX._hash := TX._hash TX.new |} in
        (Return (TX.refresh tx), c)
  end.

(** [assert(proof instanceof OwnershipProof)] holds by the type of
    [proof]. *)
Definition fromProof (proof : OwnershipProof) (c : t) : t :=
  set_blob (OwnershipProof_encode proof) c.

(** The static constructors. *)
Definition fromBlob_static (b : bytes) : t := fromBlob b new.

Definition fromProof_static (proof : OwnershipProof) : t := fromProof proof new.

(** One call of a method on a Claim: the state before and after. *)
Inductive step : t -> t -> Prop :=
| step_refresh c : step c (refresh c)
| step_hash enc c : step c (snd (hash enc c))
| step_getData n c : step c (snd (getData n c))
| step_getNameHash n c : step c (snd (getNameHash n c))
| step_read br c : step c (fst (snd (read (c, br))))
| step_toInv c : step c (snd (toInv c))
| step_getFee n c : step c (snd (getFee n c))
| step_getRate size n c : step c (snd (getRate size n c))
| step_toTX n c : step c (snd (toTX n c))
| step_fromBlob b c : step c (fromBlob b c)
| step_fromProof p c : step c (fromProof p c).

(** The Claims a program can hold: a new one, after any number of method
    calls. *)
Inductive reachable : t -> Prop :=
| reachable_new : reachable new
| reachable_step c c' : reachable c -> step c c' -> reachable c'.

End WithCollaborators.

End Claim.

(** ** A small proof codec

    A stand-in for the ownership-proof collaborator, used to run the model
    on concrete claims.  A proof is at least six bytes: the weak flag, the
    forked flag, the value and the fee as 16-bit little-endian integers,
    then the raw name.  The empty proof yields no data. *)

Module Demo.

Definition decode (b : bytes) : outcome bytes :=
  if (6 <=? List.length b)%nat then Return b else Throw ProofError.

Definition getData (p : bytes) (network : unit) : option ProofData.t :=
  match p with
  | w :: f :: v0 :: v1 :: f0 :: f1 :: name =>
      Some {| ProofData.nameHash := Blake2b.digest name;
              ProofData.nameRaw := name;
              ProofData.version := 0;
              ProofData.hash := repeat x01 20;
              ProofData.value := readUIntLE [v0; v1];
              ProofData.fee := readUIntLE [f0; f1];
              ProofData.weak := negb (Byte.eqb w x00);
              ProofData.forked := negb (Byte.eqb f x00) |}
  | _ => None
  end.

Definition collaborators : Collaborators :=
  {| Network := unit;
     OwnershipProof := bytes;
     OwnershipProof_new := [];
     OwnershipProof_decode := decode;
     OwnershipProof_encode := fun p => p;
     OwnershipProof_getData := getData;
     WITNESS_SCALE_FACTOR := 4;
     policy_getMinFee := fun size rate => 0;
     policy_getRate := fun size fee => 0;
     types_CLAIM := 1;
     types_NONE := 0;
     InvItem_types_CLAIM := 1 |}.

(** value 1000, fee 100, weak, not forked, name "a" *)
Definition proof_weak : bytes := [x01; x00; xe8; x03; x64; x00; x61].

(** the same proof on a forked chain *)
Definition proof_forked : bytes := [x01; x01; xe8; x03; x64; x00; x61].

(** too short to be a proof *)
Definition corrupt : bytes := [x01; x02].

End Demo.

(** ** Statements of the specification *)

(** The integer ceiling of [w / s]: the least [q] with [w <= q * s]. *)
Definition ceiling_div (w s : Z) : Z := - ((- w) / s).

(** All three caches are empty. *)
Definition caches_cleared (c : Claim.t) : Prop :=
  Claim._hash c = None /\ Claim._hhash c = None /\ Claim._data c = None.

(** The hex cache is empty or holds the hex digest of the current blob. *)
Definition hex_coherent (c : Claim.t) : Prop :=
  Claim._hhash c = None \/
  Claim._hhash c = Some (toString_hex (Blake2b.digest (Claim.blob c))).

(** The three caches of two Claims hold the same values. *)
Definition same_caches (c c' : Claim.t) : Prop :=
  Claim._hash c' = Claim._hash c /\
  Claim._hhash c' = Claim._hhash c /\
  Claim._data c' = Claim._data c.

(** The proof that the lenient accessor hands out for a blob. *)
Definition lenient_proof `{Collaborators} (b : bytes) : OwnershipProof :=
  match OwnershipProof_decode b with
  | Return proof => proof
  | Throw _ => OwnershipProof_new
  end.

(** The accessors of [c] answer from the blob that [c] holds. *)
Definition reads_current_blob `{Collaborators} (n : Network) (c : Claim.t)
  : Prop :=
  fst (Claim.hash None c) = Return (Raw (Blake2b.digest (Claim.blob c))) /\
  fst (Claim.hash (Some "hex"%string) c)
    = Return (Hex (toString_hex (Blake2b.digest (Claim.blob c)))) /\
  fst (Claim.getData n c)
    = Return (OwnershipProof_getData (lenient_proof (Claim.blob c)) n).

(** A Claim that has cached the hex hash of the blob [01]. *)
Definition hashed_claim : Claim.t :=
  snd (Claim.hash (Some "hex"%string) (Claim.fromBlob [x01] Claim.new)).

(** The cache invariant as the specification words it, for a Claim [c]
    that is given the blob [b]: every cache is then empty, and the hex hash
    asked for next is that of [b]. *)
Definition reassignment_clears_caches (c : Claim.t) (b : bytes) : Prop :=
  caches_cleared (Claim.fromBlob b c) /\
  fst (Claim.hash (Some "hex"%string) (Claim.fromBlob b c))
    = Return (Hex (toString_hex (Blake2b.digest b))).

(** Decoding as the specification words it, for the input [data]: once the
    length prefix is read, either it is above 10,000 and the read fails
    leaving the Claim as it was, or the read succeeds with a blob of
    exactly that length. *)
Definition read_succeeds_within_limit (data : bytes) : Prop :=
  forall (c : Claim.t) (size : Z) (br : bio.BufferReader),
    bio.readVarint (bio.read data) = (Return size, br) ->
    if 10000 <? size
    then Claim.read (c, bio.read data) = (Throw InvalidClaimSize, (c, br))
    else exists c' br',
        Claim.read (c, bio.read data) = (Return tt, (c', br')) /\
        len (Claim.blob c') = size.

(** Hash determinism as the specification words it, for two Claims: equal
    blobs give equal binary and equal hex hashes. *)
Definition hashes_agree (c1 c2 : Claim.t) : Prop :=
  Claim.blob c1 = Claim.blob c2 ->
  fst (Claim.hash None c1) = fst (Claim.hash None c2) /\
  fst (Claim.hash (Some "hex"%string) c1)
    = fst (Claim.hash (Some "hex"%string) c2).

(** The hex cache is empty or holds the hex digest of some buffer. *)
Definition hex_of_some_blob (c : Claim.t) : Prop :=
  Claim._hhash c = None \/
  exists b, Claim._hhash c = Some (toString_hex (Blake2b.digest b)).

(** The transaction that [toTX] builds from the proof data and the
    blob. *)
Definition claim_tx `{Collaborators} (data : ProofData.t) (b : bytes) : TX.t :=
  {| TX.inputs :=
       [ Input.new; {| Input.witness := {| Witness.items := [b] |} |} ];
     TX.outputs :=
       [ Output.new;
         {| Output.value :=
              if ProofData.forked data then 0
              else ProofData.value data - ProofData.fee data;
            Output.address :=
              {| Address.version := ProofData.version data;
                 Address.hash := ProofData.hash data |};
            Output.covenant :=
              {| Covenant.type := types_CLAIM;
                 Covenant.items :=
                   [ ProofData.nameHash data;
                     ProofData.nameRaw data;
                     [byte_of_Z (Claim.flags_of data)] ] |} |} ];
     TX._hash := None |}.

(** The Claims obtained from the static [fromBlob(b)] by calls that do not
    assign the blob. *)
Inductive queried `{Collaborators} (b : bytes) : Claim.t -> Prop :=
| queried_fromBlob : queried b (Claim.fromBlob_static b)
| queried_refresh c : queried b c -> queried b (Claim.refresh c)
| queried_hash enc c : queried b c -> queried b (snd (Claim.hash enc c))
| queried_getData n c : queried b c -> queried b (snd (Claim.getData n c))
| queried_getNameHash n c :
    queried b c -> queried b (snd (Claim.getNameHash n c))
| queried_toInv c : queried b c -> queried b (snd (Claim.toInv c))
| queried_getFee n c : queried b c -> queried b (snd (Claim.getFee n c))
| queried_getRate size n c :
    queried b c -> queried b (snd (Claim.getRate size n c))
| queried_toTX n c : queried b c -> queried b (snd (Claim.toTX n c)).

(** A Claim that holds [b] with caches that are empty or were filled from
    [b]. *)
Definition served_from `{Collaborators} (b : bytes) (c : Claim.t) : Prop :=
  Claim.blob c = b /\
  Claim._hash c = None /\
  hex_coherent c /\
  (forall data, Claim._data c = Some data ->
     exists n, OwnershipProof_getData (lenient_proof b) n = Some data).

(** * Proofs *)

(** ** Bytes and little-endian integers *)

Lemma byte_to_Z_range (b : byte) : 0 <= byte_to_Z b < 256.
Proof.
  unfold byte_to_Z. pose proof (Byte.to_N_bounded b) as Hb. lia.
Qed.

Lemma byte_to_of_Z (z : Z) : byte_to_Z (byte_of_Z z) = z mod 256.
Proof.
  unfold byte_to_Z, byte_of_Z.
  pose proof (Z.mod_pos_bound z 256 ltac:(lia)) as Hm.
  destruct (Byte.of_N (Z.to_N (z mod 256))) as [b|] eqn:E.
  - apply Byte.to_of_N in E. rewrite E. lia.
  - apply Byte.of_N_None_iff in E. lia.
Qed.

Lemma byte_to_of_Z_small (z : Z) : 0 <= z < 256 -> byte_to_Z (byte_of_Z z) = z.
Proof.
  intros Hz. rewrite byte_to_of_Z. apply Z.mod_small. exact Hz.
Qed.

Lemma read_write_UIntLE (n : nat) (w : Z) :
  readUIntLE (writeUIntLE n w) = w mod 256 ^ Z.of_nat n.
Proof.
  revert w. induction n as [|n IH]; intros w.
  - simpl. rewrite Z.mod_1_r. reflexivity.
  - cbn [writeUIntLE readUIntLE]. rewrite IH, byte_to_of_Z.
    rewrite Nat2Z.inj_succ, Z.pow_succ_r by lia.
    rewrite Z.rem_mul_r by lia. lia.
Qed.

Lemma writeUIntLE_length (n : nat) (w : Z) : List.length (writeUIntLE n w) = n.
Proof.
  revert w. induction n as [|n IH]; intros w; simpl; [reflexivity|].
  now rewrite IH.
Qed.

(** ** The digest on known inputs *)

(** The test vector of RFC 7693, appendix A: BLAKE2b-512 of "abc". *)
Example blake2b_512_abc :
  toString_hex (Blake2b.hash 64 [x61; x62; x63])
  = ("ba80a53f981c4d0d6a2797b69f12f6e94c212f14685ac4b74b12bb6fdbffa2d1"
     ++ "7d87c5392aab792dc252d5de4533cc9518d38aa8dbf1925ab92386edd4009923")%string.
Proof. vm_compute. reflexivity. Qed.

(** The 32-byte digest of the empty buffer, the hash of a new Claim. *)
Example blake2b_256_empty :
  toString_hex (Blake2b.digest [])
  = "0e5751c026e543b2e8ab2eb06099daa1d1e5df47778f7787faab45cdf12fe3a8"%string.
Proof. vm_compute. reflexivity. Qed.

(** ** The reader and the writer *)

Lemma rest_seek (k : nat) (br : bio.BufferReader) :
  bio.rest (bio.seek k br) = skipn k (bio.rest br).
Proof.
  unfold bio.rest, bio.seek. cbn [bio.data bio.offset].
  rewrite skipn_skipn. f_equal. lia.
Qed.

Lemma varint_length (n : Z) : len (bio.varint n) = bio.sizeVarint n.
Proof.
  unfold bio.varint, bio.sizeVarint, len.
  repeat match goal with |- context [if ?b then _ else _] => destruct b end;
    cbn [List.length]; rewrite ?writeUIntLE_length; reflexivity.
Qed.

Lemma readWide_written (width : nat) (floor n : Z) (tail : bytes)
      (br : bio.BufferReader) :
  0 <= n < 256 ^ Z.of_nat width -> n < 2 ^ 53 -> floor < n ->
  bio.readWide width floor (writeUIntLE width n ++ tail) br
    = (Return n, bio.seek (S width) br).
Proof.
  intros Hn Hsafe Hfloor. unfold bio.readWide.
  rewrite length_app, writeUIntLE_length.
  replace (width <=? width + List.length tail)%nat with true
    by (symmetry; apply Nat.leb_le; lia).
  rewrite firstn_app, writeUIntLE_length, Nat.sub_diag, firstn_O, app_nil_r.
  rewrite firstn_all2 by (rewrite writeUIntLE_length; lia).
  rewrite read_write_UIntLE, Z.mod_small by exact Hn.
  replace (n <? 2 ^ 53) with true by (symmetry; apply Z.ltb_lt; lia).
  replace (floor <? n) with true by (symmetry; apply Z.ltb_lt; lia).
  reflexivity.
Qed.

(** Reading back a length written in its smallest encoding. *)
Lemma readVarint_written (n : Z) (tail : bytes) (br : bio.BufferReader) :
  0 <= n < 2 ^ 53 ->
  bio.rest br = bio.varint n ++ tail ->
  bio.readVarint br
    = (Return n, bio.seek (List.length (bio.varint n)) br).
Proof.
  intros Hn Hrest. unfold bio.readVarint. rewrite Hrest. unfold bio.varint.
  destruct (n <? 0xfd) eqn:E1.
  - apply Z.ltb_lt in E1. cbn [app List.length].
    rewrite byte_to_of_Z_small by lia. cbv zeta.
    replace (n =? 0xff) with false by (symmetry; apply Z.eqb_neq; lia).
    replace (n =? 0xfe) with false by (symmetry; apply Z.eqb_neq; lia).
    replace (n =? 0xfd) with false by (symmetry; apply Z.eqb_neq; lia).
    reflexivity.
  - apply Z.ltb_ge in E1. destruct (n <=? 0xffff) eqn:E2.
    + apply Z.leb_le in E2. cbn [app List.length].
      rewrite writeUIntLE_length.
      change (byte_to_Z xfd) with 253. cbv zeta.
      change (253 =? 0xff) with false. change (253 =? 0xfe) with false.
      change (253 =? 0xfd) with true. cbv iota.
      apply readWide_written; change (256 ^ Z.of_nat 2) with 65536; lia.
    + apply Z.leb_gt in E2. destruct (n <=? 0xffffffff) eqn:E3.
      * apply Z.leb_le in E3. cbn [app List.length].
        rewrite writeUIntLE_length.
        change (byte_to_Z xfe) with 254. cbv zeta.
        change (254 =? 0xff) with false. change (254 =? 0xfe) with true.
        cbv iota.
        apply readWide_written; change (256 ^ Z.of_nat 4) with 4294967296; lia.
      * apply Z.leb_gt in E3. cbn [app List.length].
        rewrite writeUIntLE_length.
        change (byte_to_Z xff) with 255. cbv zeta.
        change (255 =? 0xff) with true. cbv iota.
        apply readWide_written;
          change (256 ^ Z.of_nat 8) with 18446744073709551616; lia.
Qed.

Lemma readUIntLE_nonneg (b : bytes) : 0 <= readUIntLE b.
Proof.
  induction b as [|x r IH]; cbn [readUIntLE]; [lia|].
  pose proof (byte_to_Z_range x). lia.
Qed.

Lemma readVarint_nonneg (br br' : bio.BufferReader) (size : Z) :
  bio.readVarint br = (Return size, br') -> 0 <= size.
Proof.
  unfold bio.readVarint, bio.readWide.
  destruct (bio.rest br) as [|b after]; [discriminate|]. cbv zeta.
  pose proof (byte_to_Z_range b) as Hb.
  repeat match goal with
         | |- context [if ?t then _ else _] => destruct t
         end;
    intros E; inversion E; subst;
    first [apply readUIntLE_nonneg | lia].
Qed.

(** [read] step by step: the prefix, the size check, the bytes, and only
    then the assignment to [this.blob]. *)
Lemma read_run (c : Claim.t) (br : bio.BufferReader) :
  Claim.read (c, br) =
  match bio.readVarint br with
  | (Throw e, br') => (Throw e, (c, br'))
  | (Return size, br') =>
      if 10000 <? size then (Throw InvalidClaimSize, (c, br'))
      else
        match bio.readBytes size br' with
        | (Throw e, br'') => (Throw e, (c, br''))
        | (Return b, br'') => (Return tt, (Claim.set_blob b c, br''))
        end
  end.
Proof.
  unfold Claim.read, bind, on_snd, on_fst, modify, throw, ret.
  cbn [fst snd].
  destruct (bio.readVarint br) as [[size|e] br']; [|reflexivity].
  cbn [fst snd].
  destruct (10000 <? size); [reflexivity|]. cbn [fst snd].
  destruct (bio.readBytes size br') as [[b|e] br'']; reflexivity.
Qed.

Lemma firstn_len (n : Z) (b : bytes) :
  0 <= n <= len b -> len (firstn (Z.to_nat n) b) = n.
Proof.
  unfold len. intros Hn. rewrite length_firstn. lia.
Qed.

(** ** Decoding (C2) *)

(** C2, amended.  [read] first reads the varint length prefix.  If the
    declared length exceeds 10,000 it throws 'Invalid claim size.' with
    the reader just past the prefix and the Claim untouched.  Otherwise,
    when the reader still holds that many bytes, exactly those bytes
    become the blob, the caches stay as they were and the read succeeds;
    when it holds fewer, the reader's bounds check throws and the Claim
    is untouched. *)
Theorem read_checks_declared_length
        (c : Claim.t) (br br' : bio.BufferReader) (size : Z) :
  bio.readVarint br = (Return size, br') ->
  (10000 < size ->
   Claim.read (c, br) = (Throw InvalidClaimSize, (c, br'))) /\
  (size <= 10000 -> size <= len (bio.rest br') ->
   let b := firstn (Z.to_nat size) (bio.rest br') in
   Claim.read (c, br)
     = (Return tt, (Claim.set_blob b c, bio.seek (Z.to_nat size) br')) /\
   len b = size) /\
  (size <= 10000 -> len (bio.rest br') < size ->
   Claim.read (c, br) = (Throw EncodingError, (c, br'))).
Proof.
  intros Hprefix. pose proof (readVarint_nonneg _ _ _ Hprefix) as Hpos.
  rewrite read_run, Hprefix. repeat split.
  - intros Hbig.
    replace (10000 <? size) with true by (symmetry; apply Z.ltb_lt; lia).
    reflexivity.
  - replace (10000 <? size) with false by (symmetry; apply Z.ltb_ge; lia).
    unfold bio.readBytes.
    replace (0 <=? size) with true by (symmetry; apply Z.leb_le; lia).
    replace (size <? 2 ^ 32) with true by (symmetry; apply Z.ltb_lt; lia).
    replace (size <=? len (bio.rest br')) with true
      by (symmetry; apply Z.leb_le; lia).
    reflexivity.
  - apply firstn_len. lia.
  - intros Hsmall Hshort.
    replace (10000 <? size) with false by (symmetry; apply Z.ltb_ge; lia).
    unfold bio.readBytes.
    replace (size <=? len (bio.rest br')) with false
      by (symmetry; apply Z.leb_gt; lia).
    rewrite andb_false_r. reflexivity.
Qed.

(** A three-byte blob behind its one-byte prefix, with a trailing byte
    that is left unread. *)
Lemma read_checks_declared_length_witness :
  let br := bio.read [x03; x61; x62; x63; x64] in
  let br' := bio.seek 1 br in
  bio.readVarint br = (Return 3, br') /\
  Claim.read (Claim.new, br)
    = (Return tt, (Claim.set_blob [x61; x62; x63] Claim.new, bio.seek 3 br')).
Proof.
  split; [reflexivity|].
  apply (read_checks_declared_length Claim.new
           (bio.read [x03; x61; x62; x63; x64])
           (bio.seek 1 (bio.read [x03; x61; x62; x63; x64])) 3 eq_refl);
    vm_compute; discriminate.
Defined.

(** The prefix announces five bytes, two follow: the length is within the
    limit and yet the read throws, on the bounds check of the reader. *)
Lemma read_short_buffer_fails :
  let br := bio.read [x05; x01; x02] in
  bio.readVarint br = (Return 5, bio.seek 1 br) /\
  Claim.read (Claim.new, br)
    = (Throw EncodingError, (Claim.new, bio.seek 1 br)) /\
  ~ read_succeeds_within_limit [x05; x01; x02].
Proof.
  split; [reflexivity|]. split; [reflexivity|].
  intros Hspec.
  specialize (Hspec Claim.new 5
                (bio.seek 1 (bio.read [x05; x01; x02])) eq_refl).
  cbv beta iota in Hspec. change (10000 <? 5) with false in Hspec.
  cbv iota in Hspec.
  destruct Hspec as (c' & br' & Hread & _).
  vm_compute in Hread. discriminate Hread.
Qed.

(** ** Wire round trip (C3) *)

Lemma encode_eq (c : Claim.t) :
  Claim.encode c = bio.varint (len (Claim.blob c)) ++ Claim.blob c.
Proof. reflexivity. Qed.

(** C3.  A Claim whose blob has at most 10,000 bytes is read back from its
    own encoding with the same blob (into a new Claim, so with empty
    caches), and [getSize] is the length of that encoding: the size of the
    varint prefix plus the length of the blob. *)
Theorem decode_encode_roundtrip (c : Claim.t) :
  len (Claim.blob c) <= 10000 ->
  (exists c',
      Claim.decode (Claim.encode c) = Return c' /\
      Claim.blob c' = Claim.blob c /\
      caches_cleared c') /\
  Claim.getSize c = len (Claim.encode c) /\
  Claim.getSize c
    = bio.sizeVarint (len (Claim.blob c)) + len (Claim.blob c).
Proof.
  intros Hlen. set (b := Claim.blob c) in *.
  assert (Hpos : 0 <= len b) by (unfold len; lia).
  split; [|split].
  - exists (Claim.set_blob b Claim.new). split; [|split].
    + unfold Claim.decode. rewrite read_run, encode_eq. fold b.
      rewrite (readVarint_written (len b) b) by (try reflexivity; lia).
      replace (10000 <? len b) with false by (symmetry; apply Z.ltb_ge; lia).
      unfold bio.readBytes. rewrite rest_seek.
      change (bio.rest (bio.read (bio.varint (len b) ++ b)))
        with (bio.varint (len b) ++ b).
      rewrite skipn_app, skipn_all, Nat.sub_diag. cbn [app skipn].
      replace (0 <=? len b) with true by (symmetry; apply Z.leb_le; lia).
      replace (len b <? 2 ^ 32) with true by (symmetry; apply Z.ltb_lt; lia).
      rewrite Z.leb_refl. cbn [andb].
      unfold len at 1. rewrite Nat2Z.id, firstn_all. reflexivity.
    + reflexivity.
    + repeat split.
  - rewrite encode_eq. fold b. unfold Claim.getSize, bio.sizeVarBytes. fold b.
    unfold len at 3. rewrite length_app, Nat2Z.inj_add.
    fold (len (bio.varint (len b))). fold (len b).
    rewrite varint_length. reflexivity.
  - reflexivity.
Qed.

Lemma decode_encode_roundtrip_witness :
  let c := Claim.fromBlob [x61; x62; x63] Claim.new in
  len (Claim.blob c) <= 10000 /\
  Claim.getSize c = len (Claim.encode c).
Proof.
  split; [vm_compute; discriminate|].
  apply (decode_encode_roundtrip (Claim.fromBlob [x61; x62; x63] Claim.new)).
  vm_compute; discriminate.
Defined.

(** ** Running the accessors *)

Lemma is_hex_false (enc : option string) :
  enc <> Some "hex"%string -> Claim.is_hex enc = false.
Proof.
  destruct enc as [e|]; [|reflexivity]. intros Hne. cbn.
  apply String.eqb_neq. congruence.
Qed.

Lemma hash_keeps (enc : option string) (c : Claim.t) :
  Claim.blob (snd (Claim.hash enc c)) = Claim.blob c /\
  Claim._hash (snd (Claim.hash enc c)) = Claim._hash c /\
  Claim._data (snd (Claim.hash enc c)) = Claim._data c.
Proof.
  unfold Claim.hash. destruct (Claim.is_hex enc); [|repeat split].
  destruct (Claim._hhash c) as [[|a s]|]; repeat split.
Qed.

Lemma hash_raw (enc : option string) (c : Claim.t) :
  Claim.is_hex enc = false -> Claim._hash c = None ->
  Claim.hash enc c = (Return (Raw (Blake2b.digest (Claim.blob c))), c).
Proof.
  intros Henc Hnone. unfold Claim.hash. rewrite Henc, Hnone. reflexivity.
Qed.

Lemma hash_hex (c : Claim.t) :
  Claim._hash c = None -> hex_coherent c ->
  fst (Claim.hash (Some "hex"%string) c)
    = Return (Hex (toString_hex (Blake2b.digest (Claim.blob c)))).
Proof.
  intros Hnone Hcoh. unfold Claim.hash. rewrite Hnone.
  change (Claim.is_hex (Some "hex"%string)) with true. cbv iota.
  destruct Hcoh as [E|E]; rewrite E; [reflexivity|].
  destruct (toString_hex (Blake2b.digest (Claim.blob c))); reflexivity.
Qed.

Section Accessors.

Context `{Collaborators}.

Lemma getProof_run (c : Claim.t) :
  Claim.getProof c = (Return (lenient_proof (Claim.blob c)), c).
Proof.
  unfold Claim.getProof, try_catch, Claim.toProof, lenient_proof, ret.
  destruct (OwnershipProof_decode (Claim.blob c)); reflexivity.
Qed.

Lemma getData_run (n : Network) (c : Claim.t) :
  Claim.getData n c =
  match Claim._data c with
  | Some data => (Return (Some data), c)
  | None =>
      match OwnershipProof_getData (lenient_proof (Claim.blob c)) n with
      | Some data => (Return (Some data), Claim.set_data data c)
      | None => (Return None, c)
      end
  end.
Proof.
  unfold Claim.getData. destruct (Claim._data c); [reflexivity|].
  unfold bind. rewrite getProof_run.
  destruct (OwnershipProof_getData (lenient_proof (Claim.blob c)) n);
    reflexivity.
Qed.

Lemma getData_keeps (n : Network) (c : Claim.t) :
  Claim.blob (snd (Claim.getData n c)) = Claim.blob c /\
  Claim._hash (snd (Claim.getData n c)) = Claim._hash c /\
  Claim._hhash (snd (Claim.getData n c)) = Claim._hhash c.
Proof.
  rewrite getData_run. destruct (Claim._data c); [repeat split|].
  destruct (OwnershipProof_getData (lenient_proof (Claim.blob c)) n);
    repeat split.
Qed.

(** [getNameHash], [getFee], [getRate] and [toTX] change [this] only
    through [getData]. *)
Lemma getNameHash_state (n : Network) (c : Claim.t) :
  snd (Claim.getNameHash n c) = snd (Claim.getData n c).
Proof.
  unfold Claim.getNameHash, bind.
  destruct (Claim.getData n c) as [[[d|]|e] c']; reflexivity.
Qed.

Lemma getFee_state (n : Network) (c : Claim.t) :
  snd (Claim.getFee n c) = snd (Claim.getData n c).
Proof.
  unfold Claim.getFee, bind.
  destruct (Claim.getData n c) as [[[d|]|e] c']; reflexivity.
Qed.

Lemma getRate_state (size : option Z) (n : Network) (c : Claim.t) :
  snd (Claim.getRate size n c) = snd (Claim.getData n c).
Proof.
  unfold Claim.getRate, bind. rewrite <- getFee_state.
  destruct (Claim.getFee n c) as [[f|e] c']; reflexivity.
Qed.

Lemma toTX_state (n : Network) (c : Claim.t) :
  snd (Claim.toTX n c) = snd (Claim.getData n c).
Proof.
  unfold Claim.toTX, bind.
  destruct (Claim.getData n c) as [[[d|]|e] c']; reflexivity.
Qed.

Lemma toInv_state (c : Claim.t) :
  snd (Claim.toInv c) = snd (Claim.hash (Some "hex"%string) c).
Proof.
  unfold Claim.toInv, bind, ret.
  destruct (Claim.hash (Some "hex"%string) c) as [[h|e] c']; reflexivity.
Qed.

(** What [read] leaves in [this]: the Claim as it was, or with a new blob
    and nothing else changed. *)
Lemma read_state (c : Claim.t) (br : bio.BufferReader) :
  fst (snd (Claim.read (c, br))) = c \/
  exists b, fst (snd (Claim.read (c, br))) = Claim.set_blob b c.
Proof.
  rewrite read_run.
  destruct (bio.readVarint br) as [[size|e] br']; [|now left].
  destruct (10000 <? size); [now left|].
  destruct (bio.readBytes size br') as [[b|e] br'']; [|now left].
  right. now exists b.
Qed.

(** No method stores anything in [_hash]. *)
Lemma step_keeps_hash (c c' : Claim.t) :
  Claim.step c c' -> Claim._hash c = None -> Claim._hash c' = None.
Proof.
  intros Hstep Hnone.
  destruct Hstep;
    rewrite ?getNameHash_state, ?getFee_state, ?getRate_state, ?toTX_state,
      ?toInv_state;
    try reflexivity; try exact Hnone.
  - now rewrite (proj1 (proj2 (hash_keeps enc c))).
  - now rewrite (proj1 (proj2 (getData_keeps n c))).
  - now rewrite (proj1 (proj2 (getData_keeps n c))).
  - destruct (read_state c br) as [E|[b E]]; rewrite E; exact Hnone.
  - now rewrite (proj1 (proj2 (hash_keeps _ c))).
  - now rewrite (proj1 (proj2 (getData_keeps n c))).
  - now rewrite (proj1 (proj2 (getData_keeps n c))).
  - now rewrite (proj1 (proj2 (getData_keeps n c))).
Qed.

Lemma reachable_hash_empty (c : Claim.t) :
  Claim.reachable c -> Claim._hash c = None.
Proof.
  induction 1 as [|c c' _ IH Hstep]; [reflexivity|].
  exact (step_keeps_hash c c' Hstep IH).
Qed.

(** A method call that leaves the blob as it was keeps the hex cache
    coherent with it. *)
Lemma step_keeps_hex_coherent (c c' : Claim.t) :
  Claim.step c c' -> Claim.blob c' = Claim.blob c ->
  Claim._hash c = None -> hex_coherent c -> hex_coherent c'.
Proof.
  intros Hstep Hblob Hnone Hcoh. unfold hex_coherent. rewrite Hblob.
  assert (Hget : forall n, Claim._hhash (snd (Claim.getData n c))
                           = Claim._hhash c)
    by (intros n; apply getData_keeps).
  assert (Hhash :
            Claim._hhash (snd (Claim.hash (Some "hex"%string) c)) = None \/
            Claim._hhash (snd (Claim.hash (Some "hex"%string) c))
              = Some (toString_hex (Blake2b.digest (Claim.blob c)))).
  { unfold Claim.hash. rewrite Hnone.
    change (Claim.is_hex (Some "hex"%string)) with true. cbv iota.
    destruct Hcoh as [E|E]; rewrite E; [now right|].
    destruct (toString_hex (Blake2b.digest (Claim.blob c))) eqn:Ed.
    - now right.
    - right. exact E. }
  destruct Hstep;
    rewrite ?getNameHash_state, ?getFee_state, ?getRate_state, ?toTX_state,
      ?toInv_state, ?Hget;
    try exact Hcoh; try exact Hhash.
  - now left.
  - unfold Claim.hash. destruct (Claim.is_hex enc) eqn:Ee; [|exact Hcoh].
    unfold Claim.hash in Hhash.
    change (Claim.is_hex (Some "hex"%string)) with true in Hhash.
    exact Hhash.
  - destruct (read_state c br) as [E|[b E]]; rewrite E; exact Hcoh.
Qed.

End Accessors.

(** ** Caches and blob reassignment (C1) *)

(** C1, amended.  Assigning a blob, through [fromBlob], [fromProof] or
    [read], leaves the three caches as they were.  [refresh] is what clears
    them, all three together and without touching the blob.  After an
    assignment followed by [refresh], and likewise on a Claim built by the
    static [fromBlob], [hash()], [hash('hex')] and [getData] answer from
    the blob that the Claim holds. *)
Theorem caches_cleared_by_refresh
        `{Collaborators} (c : Claim.t) (b : bytes) (p : OwnershipProof)
        (br : bio.BufferReader) (n : Network) :
  same_caches c (Claim.fromBlob b c) /\
  same_caches c (Claim.fromProof p c) /\
  same_caches c (fst (snd (Claim.read (c, br)))) /\
  caches_cleared (Claim.refresh c) /\
  Claim.blob (Claim.refresh c) = Claim.blob c /\
  caches_cleared (Claim.fromBlob_static b) /\
  reads_current_blob n (Claim.refresh (Claim.fromBlob b c)) /\
  reads_current_blob n (Claim.refresh (Claim.fromProof p c)) /\
  reads_current_blob n (Claim.refresh (fst (snd (Claim.read (c, br))))) /\
  reads_current_blob n (Claim.fromBlob_static b).
Proof.
  assert (Hreads : forall c', caches_cleared c' -> reads_current_blob n c').
  { intros c' (Hh & Hhh & Hd). unfold reads_current_blob. repeat split.
    - now rewrite hash_raw.
    - apply hash_hex; [exact Hh | now left].
    - rewrite getData_run, Hd.
      destruct (OwnershipProof_getData (lenient_proof (Claim.blob c')) n);
        reflexivity. }
  repeat match goal with |- _ /\ _ => split end;
    try (apply Hreads);
    try (unfold same_caches, caches_cleared; repeat split; reflexivity).
  destruct (read_state c br) as [E|[b' E]]; rewrite E; repeat split.
Qed.

(** A Claim that cached the hex hash of the blob [01] and is then given
    the blob [02]: the hex cache is still set, and [hash('hex')] returns
    the hash of [01], which is not that of [02]. *)
Lemma fromBlob_keeps_stale_hex :
  let c := Claim.fromBlob [x02] hashed_claim in
  @Claim.reachable Demo.collaborators hashed_claim /\
  Claim._hhash c = Some (toString_hex (Blake2b.digest [x01])) /\
  fst (Claim.hash (Some "hex"%string) c)
    = Return (Hex (toString_hex (Blake2b.digest [x01]))) /\
  toString_hex (Blake2b.digest [x01])
    <> toString_hex (Blake2b.digest (Claim.blob c)) /\
  ~ reassignment_clears_caches hashed_claim [x02].
Proof.
  split; [|split; [|split; [|split]]].
  - eapply Claim.reachable_step;
      [|apply (Claim.step_hash (Some "hex"%string))].
    eapply Claim.reachable_step; [|apply (Claim.step_fromBlob [x01])].
    apply Claim.reachable_new.
  - vm_compute. reflexivity.
  - vm_compute. reflexivity.
  - vm_compute. discriminate.
  - intros [(_ & Hhex & _) _]. vm_compute in Hhex. discriminate Hhex.
Qed.

(** ** The hash (C8, C9) *)

(** C9.  On every Claim a program can hold, the [_hash] field is null and
    stays null across [hash], so [hash()] without 'hex' returns the
    blake2b digest of the blob as it is at the call and changes nothing,
    whatever the hex cache holds. *)
Theorem binary_hash_is_recomputed
        `{Collaborators} (c : Claim.t) (enc : option string) :
  Claim.reachable c ->
  Claim._hash c = None /\
  Claim._hash (snd (Claim.hash enc c)) = None /\
  Claim.hash None c = (Return (Raw (Blake2b.digest (Claim.blob c))), c) /\
  (enc <> Some "hex"%string ->
   Claim.hash enc c = (Return (Raw (Blake2b.digest (Claim.blob c))), c)).
Proof.
  intros Hreach. pose proof (reachable_hash_empty c Hreach) as Hnone.
  repeat split.
  - exact Hnone.
  - now rewrite (proj1 (proj2 (hash_keeps enc c))).
  - now apply hash_raw.
  - intros Henc. apply hash_raw; [now apply is_hex_false | exact Hnone].
Qed.

(** The Claim with the stale hex cache: its binary hash is that of its
    present blob. *)
Lemma binary_hash_is_recomputed_witness :
  let c := Claim.fromBlob [x02] hashed_claim in
  @Claim.reachable Demo.collaborators c /\
  Claim.hash None c = (Return (Raw (Blake2b.digest [x02])), c).
Proof.
  assert (Hreach : @Claim.reachable Demo.collaborators
                     (Claim.fromBlob [x02] hashed_claim)).
  { eapply Claim.reachable_step; [|apply Claim.step_fromBlob].
    eapply Claim.reachable_step;
      [|apply (Claim.step_hash (Some "hex"%string))].
    eapply Claim.reachable_step; [|apply (Claim.step_fromBlob [x01])].
    apply Claim.reachable_new. }
  split; [exact Hreach|].
  exact (proj1 (proj2 (proj2
           (@binary_hash_is_recomputed Demo.collaborators
              (Claim.fromBlob [x02] hashed_claim) None Hreach)))).
Defined.

(** C8, amended.  For two Claims with the same blob, [hash()] returns the
    same binary digest, the blake2b digest of the blob, whatever the
    caches and the proof data are.  [hash('hex')] returns the hex form of
    that digest for both when the hex cache of each is empty or was filled
    from its present blob. *)
Theorem equal_blobs_equal_hashes
        `{Collaborators} (c1 c2 : Claim.t) :
  Claim.reachable c1 -> Claim.reachable c2 ->
  Claim.blob c1 = Claim.blob c2 ->
  fst (Claim.hash None c1) = Return (Raw (Blake2b.digest (Claim.blob c1))) /\
  fst (Claim.hash None c1) = fst (Claim.hash None c2) /\
  (hex_coherent c1 -> hex_coherent c2 ->
   fst (Claim.hash (Some "hex"%string) c1)
     = Return (Hex (toString_hex (Blake2b.digest (Claim.blob c1)))) /\
   fst (Claim.hash (Some "hex"%string) c1)
     = fst (Claim.hash (Some "hex"%string) c2)).
Proof.
  intros Hr1 Hr2 Hblob.
  pose proof (reachable_hash_empty c1 Hr1) as Hn1.
  pose proof (reachable_hash_empty c2 Hr2) as Hn2.
  repeat split.
  - now rewrite hash_raw.
  - rewrite !hash_raw by (reflexivity || assumption). cbn [fst].
    now rewrite Hblob.
  - now apply hash_hex.
  - rewrite !hash_hex by assumption. now rewrite Hblob.
Qed.

(** A new Claim and the same Claim after it has cached its hex hash. *)
Lemma equal_blobs_equal_hashes_witness :
  let c1 := Claim.fromBlob [x02] Claim.new in
  let c2 := snd (Claim.hash (Some "hex"%string) c1) in
  @Claim.reachable Demo.collaborators c1 /\
  @Claim.reachable Demo.collaborators c2 /\
  Claim.blob c1 = Claim.blob c2 /\
  fst (Claim.hash None c1) = fst (Claim.hash None c2) /\
  fst (Claim.hash (Some "hex"%string) c1)
    = fst (Claim.hash (Some "hex"%string) c2).
Proof.
  assert (Hr1 : @Claim.reachable Demo.collaborators
                  (Claim.fromBlob [x02] Claim.new)).
  { eapply Claim.reachable_step; [|apply Claim.step_fromBlob].
    apply Claim.reachable_new. }
  assert (Hr2 : @Claim.reachable Demo.collaborators
                  (snd (Claim.hash (Some "hex"%string)
                          (Claim.fromBlob [x02] Claim.new)))).
  { eapply Claim.reachable_step; [exact Hr1|].
    apply (Claim.step_hash (Some "hex"%string)). }
  split; [exact Hr1|]. split; [exact Hr2|]. split; [reflexivity|].
  destruct (@equal_blobs_equal_hashes Demo.collaborators _ _ Hr1 Hr2
              eq_refl) as (_ & Hraw & Hhex).
  split; [exact Hraw|].
  apply Hhex; [left; reflexivity | right; vm_compute; reflexivity].
Defined.

(** Two Claims that both hold the blob [02], one new, one that had cached
    the hex hash of [01] before: their hex hashes differ. *)
Lemma stale_hex_breaks_hash_agreement :
  let c1 := Claim.fromBlob [x02] Claim.new in
  let c2 := Claim.fromBlob [x02] hashed_claim in
  @Claim.reachable Demo.collaborators c1 /\
  @Claim.reachable Demo.collaborators c2 /\
  ~ hashes_agree c1 c2.
Proof.
  split; [|split].
  - eapply Claim.reachable_step; [|apply Claim.step_fromBlob].
    apply Claim.reachable_new.
  - eapply Claim.reachable_step; [|apply Claim.step_fromBlob].
    eapply Claim.reachable_step;
      [|apply (Claim.step_hash (Some "hex"%string))].
    eapply Claim.reachable_step; [|apply (Claim.step_fromBlob [x01])].
    apply Claim.reachable_new.
  - intros Hagree. destruct (Hagree eq_refl) as [_ Hhex].
    vm_compute in Hhex. discriminate Hhex.
Qed.

(** ** Lenient and strict proof access (C5) *)

(** C5.  When decoding the blob throws, [getProof] returns a new, empty
    OwnershipProof and throws nothing, while [toProof] throws the very
    error of the decoder; when decoding succeeds, both return the decoded
    proof.  Neither changes the Claim. *)
Theorem getProof_lenient_toProof_strict `{Collaborators} (c : Claim.t) :
  (forall e, OwnershipProof_decode (Claim.blob c) = Throw e ->
     Claim.getProof c = (Return OwnershipProof_new, c) /\
     Claim.toProof c = (Throw e, c)) /\
  (forall proof, OwnershipProof_decode (Claim.blob c) = Return proof ->
     Claim.getProof c = (Return proof, c) /\
     Claim.toProof c = (Return proof, c)).
Proof.
  split; intros x Hdec; rewrite getProof_run;
    unfold Claim.toProof, lenient_proof; rewrite Hdec; split; reflexivity.
Qed.

Lemma getProof_lenient_toProof_strict_witness :
  (let c := Claim.fromBlob Demo.corrupt Claim.new in
   @Claim.getProof Demo.collaborators c = (Return [], c) /\
   @Claim.toProof Demo.collaborators c = (Throw ProofError, c)) /\
  (let c := Claim.fromBlob Demo.proof_weak Claim.new in
   @Claim.getProof Demo.collaborators c = (Return Demo.proof_weak, c) /\
   @Claim.toProof Demo.collaborators c = (Return Demo.proof_weak, c)).
Proof.
  split.
  - exact (proj1 (@getProof_lenient_toProof_strict Demo.collaborators
                    (Claim.fromBlob Demo.corrupt Claim.new))
             ProofError eq_refl).
  - exact (proj2 (@getProof_lenient_toProof_strict Demo.collaborators
                    (Claim.fromBlob Demo.proof_weak Claim.new))
             Demo.proof_weak eq_refl).
Defined.

(** ** The fee (C6) *)

(** C6.  [getFee] throws an assertion error when [getData] returns null,
    and returns the [fee] field of the proof data when there is one; it
    leaves the Claim as [getData] leaves it. *)
Theorem getFee_asserts_data
        `{Collaborators} (n : Network) (c : Claim.t) :
  (fst (Claim.getData n c) = Return None ->
   fst (Claim.getFee n c) = Throw AssertionError) /\
  (forall data, fst (Claim.getData n c) = Return (Some data) ->
   fst (Claim.getFee n c) = Return (ProofData.fee data)) /\
  snd (Claim.getFee n c) = snd (Claim.getData n c).
Proof.
  split; [|split]; [| |apply getFee_state];
    unfold Claim.getFee, bind;
    destruct (Claim.getData n c) as [[[d|]|e] c']; cbn [fst];
    try discriminate; try reflexivity.
  intros data E. inversion E. reflexivity.
Qed.

Lemma getFee_asserts_data_witness :
  fst (@Claim.getFee Demo.collaborators tt
         (Claim.fromBlob Demo.corrupt Claim.new))
    = Throw AssertionError /\
  fst (@Claim.getFee Demo.collaborators tt
         (Claim.fromBlob Demo.proof_weak Claim.new))
    = Return 100.
Proof.
  split.
  - exact (proj1 (@getFee_asserts_data Demo.collaborators tt
                    (Claim.fromBlob Demo.corrupt Claim.new)) eq_refl).
  - exact (proj1 (proj2 (@getFee_asserts_data Demo.collaborators tt
                           (Claim.fromBlob Demo.proof_weak Claim.new)))
             _ eq_refl).
Defined.

(** ** Weight and virtual size (C7) *)

Lemma ceiling_div_spec (w s : Z) :
  0 < s ->
  (ceiling_div w s - 1) * s < w <= ceiling_div w s * s.
Proof.
  intros Hs. unfold ceiling_div.
  pose proof (Z.div_mod (- w) s ltac:(lia)) as Hdm.
  pose proof (Z.mod_pos_bound (- w) s Hs) as Hmod.
  nia.
Qed.

Lemma ceiling_div_unique (w s q : Z) :
  0 < s -> (q - 1) * s < w <= q * s -> ceiling_div w s = q.
Proof.
  intros Hs Hq. pose proof (ceiling_div_spec w s Hs) as Hc. nia.
Qed.

Lemma to_int32_small (z : Z) : 0 <= z < 2 ^ 31 -> to_int32 z = z.
Proof.
  intros Hz. unfold to_int32. rewrite Z.mod_small by lia.
  replace (z <? 2 ^ 31) with true by (symmetry; apply Z.ltb_lt; lia).
  reflexivity.
Qed.

Lemma getSize_pos (c : Claim.t) : 0 < Claim.getSize c.
Proof.
  unfold Claim.getSize, bio.sizeVarBytes, bio.sizeVarint, len.
  repeat match goal with |- context [if ?b then _ else _] => destruct b end;
    lia.
Qed.

(** Whatever the scale factor, the quotient fits 32 bits for a blob below
    2 GiB. *)
Lemma small_blob_fits (c : Claim.t) (s : Z) :
  0 < s -> len (Claim.blob c) < 2 ^ 31 - 9 ->
  Claim.getWeight c + s - 1 < 2 ^ 31 * s.
Proof.
  intros Hs Hlen.
  assert (Hw : Claim.getWeight c <= len (Claim.blob c) + 9).
  { unfold Claim.getWeight, Claim.getSize, bio.sizeVarBytes, bio.sizeVarint.
    repeat match goal with |- context [if ?b then _ else _] => destruct b end;
      lia. }
  nia.
Qed.



(** ** The proof-data cache (C10) *)



(** ** Materialising the transaction (C4) *)

Lemma flags_bits (data : ProofData.t) :
  let status := byte_of_Z (Claim.flags_of data) in
  Z.testbit (byte_to_Z status) 0 = ProofData.weak data /\
  Z.testbit (byte_to_Z status) 1 = ProofData.forked data /\
  0 <= byte_to_Z status < 4.
Proof.
  unfold Claim.flags_of.
  destruct (ProofData.weak data), (ProofData.forked data);
    vm_compute; repeat split; discriminate.
Qed.

(** C4.  When [getData] yields proof data, [toTX] returns a transaction
    with exactly two inputs, a new input and then an input whose witness
    holds the blob, and exactly two outputs, a new output and then an
    output of value zero for a forked proof and [value - fee] otherwise,
    addressed by the [version] and [hash] of the data, under a CLAIM
    covenant whose items are [nameHash], [nameRaw] and one status byte:
    bit 0 is the weak flag, bit 1 the forked flag, no other bit is set. *)
Theorem toTX_shape
        `{Collaborators} (n : Network) (c : Claim.t) (data : ProofData.t) :
  fst (Claim.getData n c) = Return (Some data) ->
  exists (tx : TX.t) (status : byte),
    fst (Claim.toTX n c) = Return tx /\
    TX.inputs tx
      = [ Input.new;
          {| Input.witness := {| Witness.items := [Claim.blob c] |} |} ] /\
    TX.outputs tx
      = [ Output.new;
          {| Output.value :=
               if ProofData.forked data then 0
               else ProofData.value data - ProofData.fee data;
             Output.address :=
               {| Address.version := ProofData.version data;
                  Address.hash := ProofData.hash data |};
             Output.covenant :=
               {| Covenant.type := types_CLAIM;
                  Covenant.items :=
                    [ ProofData.nameHash data;
                      ProofData.nameRaw data;
                      [status] ] |} |} ] /\
    Z.testbit (byte_to_Z status) 0 = ProofData.weak data /\
    Z.testbit (byte_to_Z status) 1 = ProofData.forked data /\
    0 <= byte_to_Z status < 4.
Proof.
  intros Hdata.
  pose proof (proj1 (getData_keeps n c)) as Hblob.
  unfold Claim.toTX, bind.
  destruct (Claim.getData n c) as [[[d|]|e] c']; try discriminate.
  cbn [fst snd] in *. inversion Hdata; subst d.
  eexists. exists (byte_of_Z (Claim.flags_of data)).
  split; [reflexivity|]. rewrite Hblob.
  split; [reflexivity|]. split; [reflexivity|].
  apply flags_bits.
Qed.

(** The weak proof of value 1000 and fee 100, and the same proof on a
    forked chain. *)
Lemma toTX_weak_example :
  exists tx out,
    fst (@Claim.toTX Demo.collaborators tt
           (Claim.fromBlob Demo.proof_weak Claim.new)) = Return tx /\
    List.length (TX.inputs tx) = 2%nat /\
    TX.outputs tx = [@Output.new Demo.collaborators; out] /\
    Output.value out = 900 /\
    Covenant.items (Output.covenant out)
      = [Blake2b.digest [x61]; [x61]; [x01]].
Proof.
  do 2 eexists. vm_compute. repeat split.
Qed.

Lemma toTX_forked_example :
  exists tx out,
    fst (@Claim.toTX Demo.collaborators tt
           (Claim.fromBlob Demo.proof_forked Claim.new)) = Return tx /\
    TX.outputs tx = [@Output.new Demo.collaborators; out] /\
    Output.value out = 0 /\
    Covenant.items (Output.covenant out)
      = [Blake2b.digest [x61]; [x61]; [x03]].
Proof.
  do 2 eexists. vm_compute. repeat split.
Qed.

Lemma toTX_shape_witness :
  let c := Claim.fromBlob Demo.proof_weak Claim.new in
  exists data,
    fst (@Claim.getData Demo.collaborators tt c) = Return (Some data) /\
    exists tx, fst (@Claim.toTX Demo.collaborators tt c) = Return tx.
Proof.
  eexists. split; [reflexivity|].
  destruct (@toTX_shape Demo.collaborators tt
              (Claim.fromBlob Demo.proof_weak Claim.new) _ eq_refl)
    as (tx & status & Htx & _).
  exists tx. exact Htx.
Defined.

(** * Further properties of the class *)

(** ** The wire format read back *)

Lemma byte_of_to_Z (b : byte) : byte_of_Z (byte_to_Z b) = b.
Proof.
  unfold byte_of_Z. rewrite Z.mod_small by apply byte_to_Z_range.
  unfold byte_to_Z. rewrite N2Z.id, Byte.of_to_N. reflexivity.
Qed.

Lemma byte_of_Z_mod (z : Z) : byte_of_Z (z mod 256) = byte_of_Z z.
Proof.
  unfold byte_of_Z. rewrite Z.mod_mod by lia. reflexivity.
Qed.

Lemma write_read_UIntLE (b : bytes) :
  writeUIntLE (List.length b) (readUIntLE b) = b.
Proof.
  induction b as [|x r IH]; [reflexivity|].
  cbn [List.length readUIntLE writeUIntLE].
  pose proof (byte_to_Z_range x) as Hx. f_equal.
  - rewrite <- byte_of_Z_mod.
    replace ((byte_to_Z x + 256 * readUIntLE r) mod 256) with (byte_to_Z x).
    + apply byte_of_to_Z.
    + rewrite Z.mul_comm, Z.mod_add by lia.
      symmetry. apply Z.mod_small. exact Hx.
  - replace ((byte_to_Z x + 256 * readUIntLE r) / 256) with (readUIntLE r);
      [exact IH|].
    rewrite Z.mul_comm, Z.div_add by lia.
    rewrite Z.div_small by exact Hx. lia.
Qed.

Lemma readUIntLE_bound (b : bytes) :
  readUIntLE b < 256 ^ Z.of_nat (List.length b).
Proof.
  induction b as [|x r IH]; [cbn; lia|].
  cbn [List.length readUIntLE].
  rewrite Nat2Z.inj_succ, Z.pow_succ_r by lia.
  pose proof (byte_to_Z_range x). lia.
Qed.

(** What [readWide] accepts is the little-endian form of the value it
    returns. *)
Lemma readWide_accepts (width : nat) (floor value : Z) (after : bytes)
      (br br' : bio.BufferReader) :
  bio.readWide width floor after br = (Return value, br') ->
  br' = bio.seek (S width) br /\
  (width <= List.length after)%nat /\
  firstn width after = writeUIntLE width value /\
  floor < value < 256 ^ Z.of_nat width.
Proof.
  unfold bio.readWide.
  destruct (width <=? List.length after)%nat eqn:Ew; [|discriminate].
  apply Nat.leb_le in Ew.
  destruct ((readUIntLE (firstn width after) <? 2 ^ 53)
            && (floor <? readUIntLE (firstn width after))) eqn:Ec;
    [|discriminate].
  apply andb_true_iff in Ec. destruct Ec as [_ Ef]. apply Z.ltb_lt in Ef.
  intros E. inversion E; subst. clear E.
  assert (Hl : List.length (firstn width after) = width)
    by (rewrite length_firstn; lia).
  repeat split; try assumption.
  - rewrite <- Hl at 2. symmetry. apply write_read_UIntLE.
  - rewrite <- Hl at 2. apply readUIntLE_bound.
Qed.

(** The reader accepts a length only in its smallest encoding: the bytes it
    consumed are those that [varint] writes for the value. *)
Lemma readVarint_canonical (br br' : bio.BufferReader) (size : Z) :
  bio.readVarint br = (Return size, br') ->
  br' = bio.seek (List.length (bio.varint size)) br /\
  bio.rest br = bio.varint size ++ bio.rest br'.
Proof.
  intros Hread.
  assert (Hcut : forall k, bio.rest br
                           = firstn k (bio.rest br)
                               ++ bio.rest (bio.seek k br))
    by (intros k; rewrite rest_seek; symmetry; apply firstn_skipn).
  unfold bio.readVarint in Hread.
  destruct (bio.rest br) as [|b after] eqn:Erest; [discriminate|].
  cbv zeta in Hread. pose proof (byte_to_Z_range b) as Hb.
  assert (Hwide : forall width floor marker,
             byte_to_Z b = byte_to_Z marker ->
             bio.readWide width floor after br = (Return size, br') ->
             bio.varint size = marker :: writeUIntLE width size ->
             br' = bio.seek (List.length (bio.varint size)) br /\
             b :: after = bio.varint size ++ bio.rest br').
  { intros width floor marker Hm Hw Hv.
    apply readWide_accepts in Hw. destruct Hw as (Hbr & Hlen & Hfirst & _).
    assert (b = marker)
      by (rewrite <- (byte_of_to_Z b), Hm; apply byte_of_to_Z).
    subst marker. rewrite Hv. cbn [List.length]. rewrite writeUIntLE_length.
    split; [exact Hbr|]. subst br'. rewrite (Hcut (S width)).
    cbn [firstn app]. now rewrite Hfirst. }
  destruct (byte_to_Z b =? 0xff) eqn:E1;
    [|destruct (byte_to_Z b =? 0xfe) eqn:E2;
      [|destruct (byte_to_Z b =? 0xfd) eqn:E3]].
  - apply Z.eqb_eq in E1. apply (Hwide 8%nat 0xffffffff xff E1 Hread).
    apply readWide_accepts in Hread. destruct Hread as (_ & _ & _ & Hr).
    unfold bio.varint.
    replace (size <? 0xfd) with false by (symmetry; apply Z.ltb_ge; lia).
    replace (size <=? 0xffff) with false by (symmetry; apply Z.leb_gt; lia).
    replace (size <=? 0xffffffff) with false
      by (symmetry; apply Z.leb_gt; lia).
    reflexivity.
  - apply Z.eqb_eq in E2. apply (Hwide 4%nat 0xffff xfe E2 Hread).
    apply readWide_accepts in Hread. destruct Hread as (_ & _ & _ & Hr).
    change (256 ^ Z.of_nat 4) with 4294967296 in Hr.
    unfold bio.varint.
    replace (size <? 0xfd) with false by (symmetry; apply Z.ltb_ge; lia).
    replace (size <=? 0xffff) with false by (symmetry; apply Z.leb_gt; lia).
    replace (size <=? 0xffffffff) with true
      by (symmetry; apply Z.leb_le; lia).
    reflexivity.
  - apply Z.eqb_eq in E3. apply (Hwide 2%nat 0xfc xfd E3 Hread).
    apply readWide_accepts in Hread. destruct Hread as (_ & _ & _ & Hr).
    change (256 ^ Z.of_nat 2) with 65536 in Hr.
    unfold bio.varint.
    replace (size <? 0xfd) with false by (symmetry; apply Z.ltb_ge; lia).
    replace (size <=? 0xffff) with true by (symmetry; apply Z.leb_le; lia).
    reflexivity.
  - apply Z.eqb_neq in E1, E2, E3. inversion Hread; subst. clear Hread.
    unfold bio.varint.
    replace (byte_to_Z b <? 0xfd) with true
      by (symmetry; apply Z.ltb_lt; lia).
    rewrite byte_of_to_Z. cbn [List.length]. split; [reflexivity|].
    rewrite (Hcut 1%nat). reflexivity.
Qed.

Lemma readBytes_accepts (size : Z) (b : bytes) (br br' : bio.BufferReader) :
  bio.readBytes size br = (Return b, br') ->
  len b = size /\
  br' = bio.seek (List.length b) br /\
  bio.rest br = b ++ bio.rest br'.
Proof.
  unfold bio.readBytes.
  destruct ((0 <=? size) && (size <? 2 ^ 32) && (size <=? len (bio.rest br)))
    eqn:Ec; [|discriminate].
  apply andb_true_iff in Ec. destruct Ec as [Ec Hle].
  apply andb_true_iff in Ec. destruct Ec as [Hpos _].
  apply Z.leb_le in Hpos, Hle. intros E. inversion E; subst. clear E.
  assert (Hl : len (firstn (Z.to_nat size) (bio.rest br)) = size)
    by (apply firstn_len; lia).
  split; [exact Hl|].
  assert (Hn : List.length (firstn (Z.to_nat size) (bio.rest br))
               = Z.to_nat size) by (unfold len in Hl; lia).
  rewrite Hn. split; [reflexivity|].
  rewrite rest_seek. symmetry. apply firstn_skipn.
Qed.

Lemma seek_seek (j k : nat) (br : bio.BufferReader) :
  bio.seek k (bio.seek j br) = bio.seek (j + k) br.
Proof.
  unfold bio.seek. cbn [bio.data bio.offset]. f_equal. lia.
Qed.

(** A successful [read], taken apart. *)
Lemma read_returns (c c' : Claim.t) (br br' : bio.BufferReader) :
  Claim.read (c, br) = (Return tt, (c', br')) ->
  exists b,
    c' = Claim.set_blob b c /\
    len b <= 10000 /\
    bio.rest br = Claim.encode c' ++ bio.rest br' /\
    br' = bio.seek (List.length (Claim.encode c')) br.
Proof.
  rewrite read_run.
  destruct (bio.readVarint br) as [[size|e] br1] eqn:Ev; [|discriminate].
  destruct (10000 <? size) eqn:Es; [discriminate|]. apply Z.ltb_ge in Es.
  destruct (bio.readBytes size br1) as [[b|e] br2] eqn:Eb; [|discriminate].
  intros E. inversion E; subst. clear E.
  apply readVarint_canonical in Ev. destruct Ev as (Hbr1 & Hrest1).
  apply readBytes_accepts in Eb. destruct Eb as (Hlen & Hbr2 & Hrest2).
  exists b. rewrite encode_eq. cbn [Claim.set_blob Claim.blob].
  rewrite Hlen. repeat split.
  - lia.
  - rewrite Hrest1, Hrest2, app_assoc. reflexivity.
  - rewrite Hbr2, Hbr1, seek_seek, length_app. reflexivity.
Qed.

Lemma getSize_encode (c : Claim.t) : Claim.getSize c = len (Claim.encode c).
Proof.
  rewrite encode_eq. unfold Claim.getSize, bio.sizeVarBytes, len.
  rewrite length_app, Nat2Z.inj_add.
  fold (len (bio.varint (Z.of_nat (List.length (Claim.blob c))))).
  rewrite varint_length. reflexivity.
Qed.

Lemma write_appends (c : Claim.t) (bw : bio.BufferWriter) :
  Claim.write c bw = bw ++ Claim.encode c.
Proof.
  rewrite encode_eq.
  unfold Claim.write, bio.writeVarBytes, bio.writeBytes, bio.writeVarint.
  now rewrite app_assoc.
Qed.

(** Reading a Claim off a reader that stands before its encoding. *)
Lemma read_encoded (a c : Claim.t) (tail : bytes) (br : bio.BufferReader) :
  len (Claim.blob c) <= 10000 ->
  bio.rest br = Claim.encode c ++ tail ->
  Claim.read (a, br)
    = (Return tt,
       (Claim.set_blob (Claim.blob c) a,
        bio.seek (List.length (Claim.encode c)) br)) /\
  bio.rest (bio.seek (List.length (Claim.encode c)) br) = tail.
Proof.
  intros Hlen Hrest. set (b := Claim.blob c) in *.
  assert (Hpos : 0 <= len b) by (unfold len; lia).
  rewrite encode_eq in *. fold b in Hrest |- *.
  rewrite <- app_assoc in Hrest. split.
  - rewrite read_run.
    rewrite (readVarint_written (len b) (b ++ tail)) by (assumption || lia).
    replace (10000 <? len b) with false by (symmetry; apply Z.ltb_ge; lia).
    unfold bio.readBytes. rewrite rest_seek, Hrest.
    rewrite skipn_app, skipn_all, Nat.sub_diag. cbn [app skipn].
    replace (0 <=? len b) with true by (symmetry; apply Z.leb_le; lia).
    replace (len b <? 2 ^ 32) with true by (symmetry; apply Z.ltb_lt; lia).
    replace (len b <=? len (b ++ tail)) with true
      by (symmetry; apply Z.leb_le; unfold len; rewrite length_app; lia).
    cbn [andb].
    replace (Z.to_nat (len b)) with (List.length b) by (unfold len; lia).
    rewrite firstn_app, firstn_all, Nat.sub_diag, firstn_O, app_nil_r.
    rewrite seek_seek, length_app. reflexivity.
  - rewrite rest_seek, Hrest, app_assoc, skipn_app, skipn_all, Nat.sub_diag.
    reflexivity.
Qed.

(** X1.  A [read] that throws leaves the Claim exactly as it was.  The
    error is the reader's or 'Invalid claim size.', and the reader has
    moved past the length prefix at most. *)
Theorem read_failure_leaves_claim
        (c : Claim.t) (br : bio.BufferReader) (e : error) :
  fst (Claim.read (c, br)) = Throw e ->
  fst (snd (Claim.read (c, br))) = c /\
  (e = EncodingError \/ e = InvalidClaimSize) /\
  (snd (snd (Claim.read (c, br))) = br \/
   exists size,
     bio.readVarint br = (Return size, snd (snd (Claim.read (c, br))))).
Proof.
  rewrite read_run.
  destruct (bio.readVarint br) as [[size|e1] br1] eqn:Ev.
  - destruct (10000 <? size) eqn:Es.
    + cbn [fst snd]. intros E. inversion E; subst.
      repeat split; [now right | right; now exists size].
    + destruct (bio.readBytes size br1) as [[b|e2] br2] eqn:Eb;
        cbn [fst snd]; [discriminate|].
      intros E. inversion E; subst. unfold bio.readBytes in Eb.
      destruct ((0 <=? size) && (size <? 2 ^ 32)
                && (size <=? len (bio.rest br1))); inversion Eb; subst.
      repeat split; [now left | right; now exists size].
  - cbn [fst snd]. intros E. inversion E; subst.
    unfold bio.readVarint, bio.readWide in Ev.
    assert (e = EncodingError /\ br1 = br) as [-> ->].
    { destruct (bio.rest br) as [|x after]; [now inversion Ev|].
      cbv zeta in Ev.
      repeat match type of Ev with
             | context [if ?t then _ else _] => destruct t
             end; inversion Ev; now subst. }
    repeat split; now left.
Qed.

Lemma read_failure_leaves_claim_witness :
  let c := Claim.fromBlob [x61] Claim.new in
  let br := bio.read [xfd; x11; x27; x00] in
  fst (Claim.read (c, br)) = Throw InvalidClaimSize /\
  fst (snd (Claim.read (c, br))) = c.
Proof.
  split; [reflexivity|].
  exact (proj1 (read_failure_leaves_claim
                  (Claim.fromBlob [x61] Claim.new)
                  (bio.read [xfd; x11; x27; x00]) InvalidClaimSize eq_refl)).
Defined.

(** X2.  A [read] that returns has stored a blob of at most 10,000 bytes,
    has left the caches as they were, and has advanced the reader by
    exactly [getSize()] bytes, which are the encoding of the Claim as it
    now is. *)
Theorem read_consumes_getSize
        (c c' : Claim.t) (br br' : bio.BufferReader) :
  Claim.read (c, br) = (Return tt, (c', br')) ->
  len (Claim.blob c') <= 10000 /\
  same_caches c c' /\
  bio.data br' = bio.data br /\
  Z.of_nat (bio.offset br') = Z.of_nat (bio.offset br) + Claim.getSize c' /\
  bio.rest br = Claim.encode c' ++ bio.rest br'.
Proof.
  intros Hread. apply read_returns in Hread.
  destruct Hread as (b & Hc' & Hlen & Hrest & Hbr').
  rewrite getSize_encode. subst c' br'.
  cbn [Claim.set_blob Claim.blob bio.seek bio.data bio.offset] in *.
  repeat split; try assumption. unfold len. lia.
Qed.

Lemma read_consumes_getSize_witness :
  let br := bio.read [x02; x61; x62; x63] in
  let c' := Claim.set_blob [x61; x62] hashed_claim in
  Claim.read (hashed_claim, br) = (Return tt, (c', bio.seek 3 br)) /\
  Claim.getSize c' = 3 /\
  same_caches hashed_claim c'.
Proof.
  assert (Hrun : Claim.read (hashed_claim, bio.read [x02; x61; x62; x63])
                 = (Return tt, (Claim.set_blob [x61; x62] hashed_claim,
                                bio.seek 3 (bio.read [x02; x61; x62; x63]))))
    by (vm_compute; reflexivity).
  split; [exact Hrun|]. split; [reflexivity|].
  exact (proj1 (proj2 (read_consumes_getSize _ _ _ _ Hrun))).
Defined.

(** X3.  [decode] accepts a Claim only from its own encoding: when it
    returns a Claim, the data starts with [encode()] of that Claim, the
    blob has at most 10,000 bytes and the caches are empty.  Bytes after
    the encoding are not looked at. *)
Theorem decode_accepts_own_encoding (data : bytes) (c : Claim.t) :
  Claim.decode data = Return c ->
  (exists tail, data = Claim.encode c ++ tail) /\
  len (Claim.blob c) <= 10000 /\
  Claim.getSize c <= len data /\
  caches_cleared c.
Proof.
  unfold Claim.decode.
  destruct (Claim.read (Claim.new, bio.read data)) as [[[]|e] [c' br']] eqn:E;
    [|discriminate].
  intros Hc. inversion Hc; subst c'. clear Hc.
  apply read_returns in E. destruct E as (b & Hc & Hlen & Hrest & _).
  change (bio.rest (bio.read data)) with data in Hrest.
  split; [now exists (bio.rest br')|].
  split; [subst c; exact Hlen|].
  split; [|subst c; repeat split].
  rewrite getSize_encode, Hrest. unfold len. rewrite length_app. lia.
Qed.

Lemma decode_accepts_own_encoding_witness :
  let c := Claim.fromBlob [x61; x62] Claim.new in
  Claim.decode [x02; x61; x62; x63] = Return c /\
  exists tail, [x02; x61; x62; x63] = Claim.encode c ++ tail.
Proof.
  split; [reflexivity|].
  exact (proj1 (decode_accepts_own_encoding [x02; x61; x62; x63]
                  (Claim.fromBlob [x61; x62] Claim.new) eq_refl)).
Defined.

(** X4.  Two Claims written one after the other into a writer, whatever
    it already holds, are read back in that order from the place where
    the first began, and the reader ends at the end of the data. *)
Theorem write_then_read_in_order
        (c1 c2 a : Claim.t) (bw : bio.BufferWriter) :
  len (Claim.blob c1) <= 10000 ->
  len (Claim.blob c2) <= 10000 ->
  let data := bio.render (Claim.write c2 (Claim.write c1 bw)) in
  let br := {| bio.data := data; bio.offset := List.length bw |} in
  exists br1 br2,
    Claim.read (a, br) = (Return tt, (Claim.set_blob (Claim.blob c1) a, br1)) /\
    Claim.read (Claim.set_blob (Claim.blob c1) a, br1)
      = (Return tt, (Claim.set_blob (Claim.blob c2) a, br2)) /\
    bio.rest br2 = [].
Proof.
  intros H1 H2 data br.
  assert (Hrest : bio.rest br = Claim.encode c1 ++ Claim.encode c2 ++ []).
  { unfold br, data, bio.rest, bio.render. cbn [bio.data bio.offset].
    rewrite !write_appends, <- app_assoc, skipn_app, skipn_all, Nat.sub_diag.
    cbn [app skipn]. now rewrite app_nil_r. }
  destruct (read_encoded a c1 _ br H1 Hrest) as [Hr1 Ht1].
  destruct (read_encoded (Claim.set_blob (Claim.blob c1) a) c2 [] _ H2 Ht1)
    as [Hr2 Ht2].
  do 2 eexists. split; [exact Hr1|]. split; [exact Hr2|exact Ht2].
Qed.

Lemma write_then_read_in_order_witness :
  let c1 := Claim.fromBlob [x61] Claim.new in
  let c2 := Claim.fromBlob [] Claim.new in
  len (Claim.blob c1) <= 10000 /\
  len (Claim.blob c2) <= 10000 /\
  exists br1 br2,
    Claim.read (Claim.new, {| bio.data := [xff; x01; x61; x00];
                              bio.offset := 1 |})
      = (Return tt, (c1, br1)) /\
    Claim.read (c1, br1) = (Return tt, (c2, br2)) /\
    bio.rest br2 = [].
Proof.
  split; [vm_compute; discriminate|]. split; [vm_compute; discriminate|].
  apply (write_then_read_in_order
           (Claim.fromBlob [x61] Claim.new) (Claim.fromBlob [] Claim.new)
           Claim.new [xff]); vm_compute; discriminate.
Defined.

(** X5.  [write] puts no limit on the blob: a Claim whose blob is longer
    than 10,000 bytes is encoded all the same, and [decode] rejects that
    encoding with 'Invalid claim size.'. *)
Theorem decode_rejects_long_blob (c : Claim.t) :
  10000 < len (Claim.blob c) < 2 ^ 53 ->
  len (Claim.encode c) = Claim.getSize c /\
  Claim.decode (Claim.encode c) = Throw InvalidClaimSize.
Proof.
  intros Hlen. split; [symmetry; apply getSize_encode|].
  unfold Claim.decode. rewrite read_run, encode_eq.
  rewrite (readVarint_written (len (Claim.blob c)) (Claim.blob c))
    by (reflexivity || lia).
  replace (10000 <? len (Claim.blob c)) with true
    by (symmetry; apply Z.ltb_lt; lia).
  reflexivity.
Qed.

Lemma decode_rejects_long_blob_witness :
  let c := Claim.fromBlob (repeat x00 (Z.to_nat 10001)) Claim.new in
  10000 < len (Claim.blob c) < 2 ^ 53 /\
  Claim.decode (Claim.encode c) = Throw InvalidClaimSize.
Proof.
  assert (H : 10000 < len (Claim.blob
                             (Claim.fromBlob (repeat x00 (Z.to_nat 10001)) Claim.new))
              < 2 ^ 53)
    by (split; vm_compute; reflexivity).
  split; [exact H|].
  exact (proj2 (decode_rejects_long_blob _ H)).
Defined.

Lemma sizeVarBytes_increasing (m n : Z) :
  m < n -> bio.sizeVarint m + m < bio.sizeVarint n + n.
Proof.
  intros Hmn. unfold bio.sizeVarint.
  repeat match goal with
         | |- context [if ?a <? ?b then _ else _] =>
             destruct (Z.ltb_spec a b)
         | |- context [if ?a <=? ?b then _ else _] =>
             destruct (Z.leb_spec a b)
         end; lia.
Qed.

(** X6.  The encoding determines the blob: two Claims with the same
    [encode()] hold the same blob, of whatever length. *)
Theorem encode_injective (c1 c2 : Claim.t) :
  Claim.encode c1 = Claim.encode c2 -> Claim.blob c1 = Claim.blob c2.
Proof.
  intros Henc.
  assert (Hlen : len (Claim.blob c1) = len (Claim.blob c2)).
  { pose proof (getSize_encode c1) as H1.
    pose proof (getSize_encode c2) as H2. rewrite Henc in H1.
    unfold Claim.getSize, bio.sizeVarBytes in H1, H2.
    destruct (Z.lt_trichotomy (len (Claim.blob c1)) (len (Claim.blob c2)))
      as [Hlt|[Heq|Hgt]]; [|exact Heq|];
      [pose proof (sizeVarBytes_increasing _ _ Hlt)
      |pose proof (sizeVarBytes_increasing _ _ Hgt)]; lia. }
  rewrite !encode_eq, Hlen in Henc. now apply app_inv_head in Henc.
Qed.

Lemma encode_injective_witness :
  let c1 := Claim.fromBlob [x61] Claim.new in
  Claim.encode c1 = Claim.encode (Claim.set_blob [x61] hashed_claim) /\
  Claim.blob c1 = Claim.blob (Claim.set_blob [x61] hashed_claim).
Proof.
  split; [reflexivity|].
  exact (encode_injective (Claim.fromBlob [x61] Claim.new)
           (Claim.set_blob [x61] hashed_claim) eq_refl).
Defined.

(** ** The size of the hash *)

Lemma set_length (v : list Z) (i : nat) (x : Z) :
  List.length (Blake2b.set v i x) = List.length v.
Proof.
  revert i. induction v as [|y r IH]; intros i; [reflexivity|].
  destruct i; cbn [Blake2b.set List.length]; [reflexivity|].
  now rewrite IH.
Qed.

Lemma G_length (v : list Z) (a b c d : nat) (x y : Z) :
  List.length (Blake2b.G v a b c d x y) = List.length v.
Proof. unfold Blake2b.G. cbv zeta. now rewrite !set_length. Qed.

Lemma round_length (m v : list Z) (s : list nat) :
  List.length (Blake2b.round m v s) = List.length v.
Proof. unfold Blake2b.round. cbv zeta. now rewrite !G_length. Qed.

Lemma fold_left_length {A} (f : list Z -> A -> list Z) :
  (forall v s, List.length (f v s) = List.length v) ->
  forall ss v, List.length (fold_left f ss v) = List.length v.
Proof.
  intros Hf ss. induction ss as [|s ss IH]; intros v; [reflexivity|].
  cbn [fold_left]. now rewrite IH, Hf.
Qed.

Lemma rounds_length (m : list Z) (ss : list (list nat)) (v : list Z) :
  List.length (fold_left (Blake2b.round m) ss v) = List.length v.
Proof. apply fold_left_length. intros v' s. apply round_length. Qed.

Lemma xor3_length (n : nat) (h v w : list Z) :
  List.length h = n -> List.length v = n -> List.length w = n ->
  List.length (Blake2b.xor3 h v w) = n.
Proof.
  revert h v w. induction n as [|n IH]; intros [|a h] [|b v] [|c w];
    cbn [List.length Blake2b.xor3]; try discriminate; try reflexivity.
  intros Hh Hv Hw. f_equal. apply IH; congruence.
Qed.

Lemma compress_length (h m : list Z) (t : Z) (last : bool) :
  List.length h = 8%nat ->
  List.length (Blake2b.compress h m t last) = 8%nat.
Proof.
  intros Hh. unfold Blake2b.compress. cbv zeta.
  match goal with
  | |- context [fold_left _ _ ?v0] =>
      assert (Hv : List.length (fold_left (Blake2b.round m) Blake2b.SIGMA v0)
                   = 16%nat)
  end.
  { rewrite rounds_length. destruct last; rewrite !set_length, length_app, Hh;
      reflexivity. }
  apply xor3_length; [exact Hh| |].
  - rewrite length_firstn, Hv. reflexivity.
  - rewrite length_skipn, Hv. reflexivity.
Qed.

Lemma absorb_length (fuel : nat) (h : list Z) (t : Z) (b : bytes) :
  List.length h = 8%nat ->
  List.length (Blake2b.absorb fuel h t b) = 8%nat.
Proof.
  revert h t b. induction fuel as [|k IH]; intros h t b Hh; [exact Hh|].
  cbn [Blake2b.absorb]. destruct (List.length b <=? 128)%nat.
  - now apply compress_length.
  - apply IH. now apply compress_length.
Qed.

Lemma words_bytes_length (h : list Z) :
  List.length (flat_map (writeUIntLE 8) h) = (8 * List.length h)%nat.
Proof.
  induction h as [|w h IH]; [reflexivity|].
  cbn [flat_map]. rewrite length_app, writeUIntLE_length, IH.
  cbn [List.length]. lia.
Qed.

(** The digest is 32 bytes long, whatever the input. *)
Lemma digest_length (b : bytes) : List.length (Blake2b.digest b) = 32%nat.
Proof.
  unfold Blake2b.digest, Blake2b.hash. cbv zeta.
  rewrite length_firstn, words_bytes_length, absorb_length; [reflexivity|].
  now rewrite set_length.
Qed.

Lemma toString_hex_length (b : bytes) :
  String.length (toString_hex b) = (2 * List.length b)%nat.
Proof.
  induction b as [|x r IH]; [reflexivity|].
  cbn [toString_hex String.length List.length]. rewrite IH. lia.
Qed.

Lemma hash_keeps_hex_of_some_blob (enc : option string) (c : Claim.t) :
  Claim._hash c = None -> hex_of_some_blob c ->
  hex_of_some_blob (snd (Claim.hash enc c)).
Proof.
  intros Hnone Hhex. unfold Claim.hash. rewrite Hnone.
  destruct (Claim.is_hex enc); [|exact Hhex].
  destruct (Claim._hhash c) as [[|a s]|] eqn:E; cbn [snd];
    try (right; exists (Claim.blob c); reflexivity).
  exact Hhex.
Qed.

Section HashSize.

Context `{Collaborators}.

Lemma reachable_hex_of_some_blob (c : Claim.t) :
  Claim.reachable c -> hex_of_some_blob c.
Proof.
  induction 1 as [|c c' Hreach IH Hstep]; [now left|].
  pose proof (reachable_hash_empty c Hreach) as Hnone.
  assert (Hget : forall n, Claim._hhash (snd (Claim.getData n c))
                           = Claim._hhash c)
    by (intros n; apply getData_keeps).
  unfold hex_of_some_blob in *.
  destruct Hstep;
    rewrite ?getNameHash_state, ?getFee_state, ?getRate_state, ?toTX_state,
      ?toInv_state, ?Hget;
    try exact IH;
    try (apply hash_keeps_hex_of_some_blob; assumption).
  - now left.
  - destruct (read_state c br) as [E|[b E]]; rewrite E; exact IH.
Qed.

(** X7.  On every Claim a program can hold, [hash()] returns 32 bytes and
    [hash('hex')] a string of 64 characters, also when it comes from the
    cache. *)
Theorem hash_has_fixed_size (c : Claim.t) :
  Claim.reachable c ->
  (exists h, fst (Claim.hash None c) = Return (Raw h) /\
             List.length h = 32%nat) /\
  (exists s, fst (Claim.hash (Some "hex"%string) c) = Return (Hex s) /\
             String.length s = 64%nat).
Proof.
  intros Hreach. pose proof (reachable_hash_empty c Hreach) as Hnone.
  pose proof (reachable_hex_of_some_blob c Hreach) as Hhex. split.
  - exists (Blake2b.digest (Claim.blob c)). rewrite hash_raw by easy.
    split; [reflexivity | apply digest_length].
  - assert (Hlen : forall b, String.length (toString_hex (Blake2b.digest b))
                             = 64%nat)
      by (intros b; now rewrite toString_hex_length, digest_length).
    unfold Claim.hash. rewrite Hnone.
    change (Claim.is_hex (Some "hex"%string)) with true. cbv iota.
    destruct Hhex as [E|[b E]]; rewrite E.
    + eexists. split; [reflexivity | apply Hlen].
    + specialize (Hlen b).
      destruct (toString_hex (Blake2b.digest b)) as [|a s];
        [discriminate Hlen|].
      eexists. split; [reflexivity | exact Hlen].
Qed.

End HashSize.

Lemma hash_has_fixed_size_witness :
  @Claim.reachable Demo.collaborators (Claim.fromBlob [x02] hashed_claim) /\
  exists s,
    fst (Claim.hash (Some "hex"%string) (Claim.fromBlob [x02] hashed_claim))
      = Return (Hex s) /\
    String.length s = 64%nat.
Proof.
  assert (Hreach : @Claim.reachable Demo.collaborators
                     (Claim.fromBlob [x02] hashed_claim)).
  { eapply Claim.reachable_step; [|apply Claim.step_fromBlob].
    eapply Claim.reachable_step;
      [|apply (Claim.step_hash (Some "hex"%string))].
    eapply Claim.reachable_step; [|apply (Claim.step_fromBlob [x01])].
    apply Claim.reachable_new. }
  split; [exact Hreach|].
  exact (proj2 (@hash_has_fixed_size Demo.collaborators _ Hreach)).
Defined.

Lemma hash_hex_is_memoised_aux (c : Claim.t) :
  Claim.hash (Some "hex"%string) (snd (Claim.hash (Some "hex"%string) c))
    = (fst (Claim.hash (Some "hex"%string) c),
       snd (Claim.hash (Some "hex"%string) c)).
Proof.
  unfold Claim.hash.
  change (Claim.is_hex (Some "hex"%string)) with true. cbv iota zeta.
  destruct c as [b h [[|a s]|] d]; cbn [Claim._hhash Claim._hash Claim.blob];
    cbn [snd fst Claim.set_hhash Claim._hhash Claim._hash Claim.blob];
    try reflexivity;
    destruct (toString_hex match h with
                           | Some h0 => h0
                           | None => Blake2b.digest b
                           end); reflexivity.
Qed.

(** X8.  [hash('hex')] is memoised: a second call returns the string of
    the first and changes nothing, and the binary hash is the same before
    and after. *)
Theorem hash_hex_is_memoised (c : Claim.t) :
  let c' := snd (Claim.hash (Some "hex"%string) c) in
  Claim.hash (Some "hex"%string) c'
    = (fst (Claim.hash (Some "hex"%string) c), c') /\
  fst (Claim.hash None c') = fst (Claim.hash None c).
Proof.
  unfold Claim.hash.
  change (Claim.is_hex (Some "hex"%string)) with true.
  change (Claim.is_hex None) with false. cbv iota zeta.
  destruct c as [b h [[|a s]|] d]; cbn [Claim._hhash Claim._hash Claim.blob];
    cbn [snd fst Claim.set_hhash Claim._hhash Claim._hash Claim.blob];
    try (split; reflexivity).
  - destruct (toString_hex match h with
                           | Some h0 => h0
                           | None => Blake2b.digest b
                           end); split; reflexivity.
  - destruct (toString_hex match h with
                           | Some h0 => h0
                           | None => Blake2b.digest b
                           end); split; reflexivity.
Qed.

(** ** What the methods keep *)

Section Frames.

Context `{Collaborators}.

(** X9.  Only [fromBlob], [fromProof] and [read] assign the blob: the
    other methods leave it as it is, whether they return or throw. *)
Theorem accessors_keep_blob
        (c : Claim.t) (enc : option string) (n : Network) (size : option Z) :
  Claim.blob (Claim.refresh c) = Claim.blob c /\
  Claim.blob (snd (Claim.hash enc c)) = Claim.blob c /\
  Claim.blob (snd (Claim.getData n c)) = Claim.blob c /\
  Claim.blob (snd (Claim.getNameHash n c)) = Claim.blob c /\
  Claim.blob (snd (Claim.toInv c)) = Claim.blob c /\
  Claim.blob (snd (Claim.getFee n c)) = Claim.blob c /\
  Claim.blob (snd (Claim.getRate size n c)) = Claim.blob c /\
  Claim.blob (snd (Claim.toTX n c)) = Claim.blob c /\
  Claim.blob (snd (Claim.getProof c)) = Claim.blob c /\
  Claim.blob (snd (Claim.toProof c)) = Claim.blob c.
Proof.
  rewrite getNameHash_state, getFee_state, getRate_state, toTX_state,
    toInv_state, getProof_run.
  pose proof (proj1 (getData_keeps n c)) as Hd.
  pose proof (proj1 (hash_keeps enc c)) as Hh.
  pose proof (proj1 (hash_keeps (Some "hex"%string) c)) as Hx.
  repeat split; assumption.
Qed.


(** X11.  The hash and the proof data do not depend on each other:
    [hash] returns the same with or without a [getData] before it,
    [getData] the same with or without a [hash] before it, and the two
    calls leave the same Claim in either order. *)
Theorem hash_and_getData_commute
        (c : Claim.t) (enc : option string) (n : Network) :
  fst (Claim.hash enc (snd (Claim.getData n c))) = fst (Claim.hash enc c) /\
  fst (Claim.getData n (snd (Claim.hash enc c))) = fst (Claim.getData n c) /\
  snd (Claim.hash enc (snd (Claim.getData n c)))
    = snd (Claim.getData n (snd (Claim.hash enc c))).
Proof.
  rewrite !getData_run. unfold Claim.hash.
  destruct c as [b h hh d]. cbn [Claim._data Claim._hash Claim._hhash Claim.blob].
  destruct (Claim.is_hex enc), d as [data|], hh as [[|a s]|];
    cbn [snd fst Claim.set_hhash Claim.set_data Claim._data Claim._hash
           Claim._hhash Claim.blob];
    try destruct (OwnershipProof_getData (lenient_proof b) n);
    repeat split; reflexivity.
Qed.

End Frames.


(** ** The data accessors together *)

Section DataAccessors.

Context `{Collaborators}.

Lemma toTX_run (n : Network) (c : Claim.t) :
  Claim.toTX n c =
  match Claim.getData n c with
  | (Return (Some data), c') => (Return (claim_tx data (Claim.blob c')), c')
  | (Return None, c') => (Throw AssertionError, c')
  | (Throw e, c') => (Throw e, c')
  end.
Proof.
  unfold Claim.toTX, bind.
  destruct (Claim.getData n c) as [[[d|]|e] c']; reflexivity.
Qed.

Lemma getData_cached (n : Network) (c : Claim.t) (data : ProofData.t) :
  Claim._data c = Some data -> Claim.getData n c = (Return (Some data), c).
Proof. intros E. now rewrite getData_run, E. Qed.

Lemma getData_fills (n : Network) (c c' : Claim.t) (data : ProofData.t) :
  Claim.getData n c = (Return (Some data), c') ->
  Claim._data c' = Some data /\ Claim.blob c' = Claim.blob c.
Proof.
  rewrite getData_run. destruct (Claim._data c) as [d|] eqn:Ed.
  - intros E. inversion E; subst. now split.
  - destruct (OwnershipProof_getData (lenient_proof (Claim.blob c)) n);
      intros E; inversion E; subst. now split.
Qed.

Lemma getData_returns (n : Network) (c : Claim.t) :
  exists r, fst (Claim.getData n c) = Return r.
Proof.
  rewrite getData_run. destruct (Claim._data c).
  - eexists; reflexivity.
  - destruct (OwnershipProof_getData (lenient_proof (Claim.blob c)) n);
      eexists; reflexivity.
Qed.

Lemma getData_null (n : Network) (c : Claim.t) :
  fst (Claim.getData n c) = Return None -> Claim.getData n c = (Return None, c).
Proof.
  rewrite getData_run. destruct (Claim._data c); [discriminate|].
  destruct (OwnershipProof_getData (lenient_proof (Claim.blob c)) n);
    [discriminate|reflexivity].
Qed.

(** X12.  [toTX] can be repeated: when it returns a transaction, the proof
    data is cached, a second call returns the same transaction for any
    network and changes nothing, [getFee] then returns the fee of the
    cached data, and the transaction comes with its own hash cache
    empty. *)
Theorem toTX_is_repeatable
        (n n' : Network) (c c' : Claim.t) (tx : TX.t) :
  Claim.toTX n c = (Return tx, c') ->
  Claim.toTX n' c' = (Return tx, c') /\
  TX._hash tx = None /\
  exists data,
    Claim._data c' = Some data /\
    Claim.getFee n' c' = (Return (ProofData.fee data), c').
Proof.
  rewrite toTX_run.
  destruct (Claim.getData n c) as [[[d|]|e] c1] eqn:Eg; try discriminate.
  intros E. inversion E; subst c1 tx. clear E.
  apply getData_fills in Eg. destruct Eg as [Hd _].
  split; [|split; [reflexivity|exists d; split; [exact Hd|]]].
  - now rewrite toTX_run, (getData_cached n' c' d Hd).
  - unfold Claim.getFee, bind. now rewrite (getData_cached n' c' d Hd).
Qed.

(** X13.  With proof data in the cache, [toTX] after [fromBlob] puts the
    new blob in the witness and takes the outputs from the cached data:
    they are those of the transaction built before the blob was replaced,
    whatever the new blob is. *)
Theorem toTX_mixes_new_blob_and_cached_data
        (n n' : Network) (c : Claim.t) (data : ProofData.t) (b : bytes) :
  Claim._data c = Some data ->
  exists tx tx',
    fst (Claim.toTX n c) = Return tx /\
    fst (Claim.toTX n' (Claim.fromBlob b c)) = Return tx' /\
    TX.outputs tx' = TX.outputs tx /\
    TX.inputs tx'
      = [ Input.new; {| Input.witness := {| Witness.items := [b] |} |} ].
Proof.
  intros Hd.
  assert (Hd' : Claim._data (Claim.fromBlob b c) = Some data) by exact Hd.
  exists (claim_tx data (Claim.blob c)), (claim_tx data b).
  rewrite !toTX_run, (getData_cached n c data Hd),
    (getData_cached n' _ data Hd').
  repeat split.
Qed.

(** X14.  How the data accessors fail.  [getNameHash] never throws: it
    returns null when [getData] does and the [nameHash] of the data
    otherwise.  [toTX] and [getRate] throw
    nothing but the assertion error, exactly when [getData] returns null,
    and then leave the Claim as it was. *)
Theorem data_accessors_fail_on_null_only
        (n : Network) (c : Claim.t) (size : option Z) :
  (exists r, fst (Claim.getData n c) = Return r /\
             fst (Claim.getNameHash n c)
               = Return (option_map ProofData.nameHash r)) /\
  (forall e, fst (Claim.toTX n c) = Throw e \/
             fst (Claim.getRate size n c) = Throw e ->
             e = AssertionError /\ fst (Claim.getData n c) = Return None) /\
  (fst (Claim.getData n c) = Return None ->
   Claim.toTX n c = (Throw AssertionError, c) /\
   Claim.getRate size n c = (Throw AssertionError, c)).
Proof.
  split; [|split].
  - unfold Claim.getNameHash, bind.
    destruct (getData_returns n c) as [r Hr].
    destruct (Claim.getData n c) as [[[d|]|e] c']; cbn [fst] in *;
      try discriminate; eexists; split; reflexivity.
  - intros e. rewrite toTX_run. unfold Claim.getRate, Claim.getFee, bind.
    destruct (getData_returns n c) as [r Hr].
    destruct (Claim.getData n c) as [[[d|]|e'] c']; cbn [fst] in *;
      try discriminate; intros [E|E]; inversion E; now split.
  - intros Hnull. apply getData_null in Hnull.
    rewrite toTX_run. unfold Claim.getRate, Claim.getFee, bind.
    rewrite Hnull. now split.
Qed.

(** X15.  When the proof codec reads back what it writes, a Claim made
    from a proof hands the proof back through [toProof] and [getProof],
    and [getData] on it is the data of that proof, cached when there is
    some. *)
Theorem fromProof_then_getData
        (proof : OwnershipProof) (n : Network) :
  OwnershipProof_decode (OwnershipProof_encode proof) = Return proof ->
  let c := Claim.fromProof_static proof in
  Claim.toProof c = (Return proof, c) /\
  Claim.getProof c = (Return proof, c) /\
  fst (Claim.getData n c) = Return (OwnershipProof_getData proof n) /\
  Claim._data (snd (Claim.getData n c)) = OwnershipProof_getData proof n.
Proof.
  intros Hcodec c.
  assert (Hlenient : lenient_proof (Claim.blob c) = proof)
    by (unfold lenient_proof; cbn; now rewrite Hcodec).
  rewrite getProof_run, getData_run, Hlenient. unfold Claim.toProof.
  change (Claim.blob c) with (OwnershipProof_encode proof).
  rewrite Hcodec. change (Claim._data c) with (@None ProofData.t).
  destruct (OwnershipProof_getData proof n); repeat split.
Qed.

(** X16.  On a Claim whose hex cache is empty or was filled from its
    present blob, [toInv] returns the item tagged as a claim and keyed by
    the hex digest of the blob; it fills the hex cache, so that
    [hash('hex')] and a second [toInv] return the same key and change
    nothing. *)
Theorem toInv_keys_by_hex_hash (c : Claim.t) :
  let item := {| InvItem.type := InvItem_types_CLAIM;
                 InvItem.hash := Hex (toString_hex (Blake2b.digest (Claim.blob c))) |} in
  Claim.reachable c -> hex_coherent c ->
  exists c',
    Claim.toInv c = (Return item, c') /\
    Claim.hash (Some "hex"%string) c' = (Return (InvItem.hash item), c') /\
    Claim.toInv c' = (Return item, c').
Proof.
  intros item Hreach Hcoh.
  pose proof (reachable_hash_empty c Hreach) as Hnone.
  pose proof (hash_hex c Hnone Hcoh) as Hhex.
  pose proof (hash_hex_is_memoised_aux c) as Hmemo.
  exists (snd (Claim.hash (Some "hex"%string) c)).
  unfold Claim.toInv, bind, ret. rewrite Hmemo.
  destruct (Claim.hash (Some "hex"%string) c) as [[h|e] c'] eqn:E;
    cbn [fst snd] in *; [|discriminate].
  inversion Hhex; subst h. repeat split.
Qed.

End DataAccessors.

Lemma toTX_is_repeatable_witness :
  let c := Claim.fromBlob Demo.proof_weak Claim.new in
  exists tx c',
    @Claim.toTX Demo.collaborators tt c = (Return tx, c') /\
    @Claim.toTX Demo.collaborators tt c' = (Return tx, c').
Proof.
  do 2 eexists.
  assert (Hrun : @Claim.toTX Demo.collaborators tt
                   (Claim.fromBlob Demo.proof_weak Claim.new)
                 = (Return ?[tx], ?[c'])) by (vm_compute; reflexivity).
  split; [exact Hrun|].
  exact (proj1 (@toTX_is_repeatable Demo.collaborators tt tt _ _ _ Hrun)).
Defined.

Lemma toTX_mixes_new_blob_and_cached_data_witness :
  let c := snd (@Claim.getData Demo.collaborators tt
                  (Claim.fromBlob Demo.proof_weak Claim.new)) in
  exists data,
    Claim._data c = Some data /\
    exists tx',
      fst (@Claim.toTX Demo.collaborators tt (Claim.fromBlob Demo.corrupt c))
        = Return tx' /\
      TX.inputs tx'
        = [ Input.new;
            {| Input.witness := {| Witness.items := [Demo.corrupt] |} |} ].
Proof.
  eexists.
  assert (Hd : Claim._data
                 (snd (@Claim.getData Demo.collaborators tt
                         (Claim.fromBlob Demo.proof_weak Claim.new)))
               = Some ?[data]) by (vm_compute; reflexivity).
  split; [exact Hd|].
  destruct (@toTX_mixes_new_blob_and_cached_data Demo.collaborators tt tt
              _ _ Demo.corrupt Hd) as (tx & tx' & _ & Htx' & _ & Hin).
  exists tx'. split; [exact Htx'|exact Hin].
Defined.

Lemma fromProof_then_getData_witness :
  let c := @Claim.fromProof_static Demo.collaborators Demo.proof_weak in
  Demo.decode Demo.proof_weak = Return Demo.proof_weak /\
  @Claim.toProof Demo.collaborators c = (Return Demo.proof_weak, c).
Proof.
  split; [reflexivity|].
  exact (proj1 (@fromProof_then_getData Demo.collaborators Demo.proof_weak tt
                  eq_refl)).
Defined.

Lemma toInv_keys_by_hex_hash_witness :
  let c := Claim.fromBlob [x02] Claim.new in
  @Claim.reachable Demo.collaborators c /\
  hex_coherent c /\
  exists c',
    @Claim.toInv Demo.collaborators c
      = (Return {| InvItem.type := 1;
                   InvItem.hash := Hex (toString_hex (Blake2b.digest [x02])) |},
         c').
Proof.
  assert (Hreach : @Claim.reachable Demo.collaborators
                     (Claim.fromBlob [x02] Claim.new)).
  { eapply Claim.reachable_step; [|apply Claim.step_fromBlob].
    apply Claim.reachable_new. }
  assert (Hcoh : hex_coherent (Claim.fromBlob [x02] Claim.new))
    by (left; reflexivity).
  split; [exact Hreach|]. split; [exact Hcoh|].
  destruct (@toInv_keys_by_hex_hash Demo.collaborators _ Hreach Hcoh)
    as (c' & Hinv & _).
  exists c'. exact Hinv.
Defined.

(** ** Bounds on the virtual size *)

Section VirtualSize.

Context `{Collaborators}.

Lemma getVirtualSize_div (c : Claim.t) :
  0 < WITNESS_SCALE_FACTOR ->
  Claim.getWeight c + WITNESS_SCALE_FACTOR - 1
    < 2 ^ 31 * WITNESS_SCALE_FACTOR ->
  Claim.getVirtualSize c
    = (Claim.getWeight c + WITNESS_SCALE_FACTOR - 1) / WITNESS_SCALE_FACTOR.
Proof.
  intros Hs Hfit. unfold Claim.getVirtualSize. cbv zeta.
  pose proof (getSize_pos c) as Hw. fold (Claim.getWeight c) in Hw.
  set (w := Claim.getWeight c) in *. set (s := WITNESS_SCALE_FACTOR) in *.
  rewrite Z.quot_div_nonneg by lia.
  pose proof (Z.div_mod (w + s - 1) s ltac:(lia)) as Hdm.
  pose proof (Z.mod_pos_bound (w + s - 1) s Hs) as Hmod.
  apply to_int32_small. split; [apply Z.div_pos; lia | nia].
Qed.

(** X17.  For a positive scale factor and a weight within the 32-bit
    range, the virtual size is at least 1 and at most the weight, and it
    is the least number of units of [WITNESS_SCALE_FACTOR] that cover the
    weight. *)
Theorem virtual_size_bounds (c : Claim.t) :
  0 < WITNESS_SCALE_FACTOR ->
  Claim.getWeight c + WITNESS_SCALE_FACTOR - 1
    < 2 ^ 31 * WITNESS_SCALE_FACTOR ->
  1 <= Claim.getVirtualSize c <= Claim.getWeight c /\
  Claim.getWeight c
    <= Claim.getVirtualSize c * WITNESS_SCALE_FACTOR
    < Claim.getWeight c + WITNESS_SCALE_FACTOR.
Proof.
  intros Hs Hfit. rewrite getVirtualSize_div by assumption.
  pose proof (getSize_pos c) as Hw. fold (Claim.getWeight c) in Hw.
  set (w := Claim.getWeight c) in *. set (s := WITNESS_SCALE_FACTOR) in *.
  pose proof (Z.div_mod (w + s - 1) s ltac:(lia)) as Hdm.
  pose proof (Z.mod_pos_bound (w + s - 1) s Hs) as Hmod.
  nia.
Qed.

Lemma decode_returns (data : bytes) (c : Claim.t) :
  Claim.decode data = Return c -> len (Claim.blob c) <= 10000.
Proof.
  unfold Claim.decode.
  destruct (Claim.read (Claim.new, bio.read data)) as [[[]|e] [c' br']] eqn:E;
    [|discriminate].
  intros Hc. inversion Hc; subst c'.
  apply read_returns in E. destruct E as (b & Hb & Hlen & _).
  now subst c.
Qed.

(** X18.  A decoded Claim weighs at most 10,003 bytes, and for any
    positive scale factor its virtual size is the ceiling of the weight
    over the factor, between 1 and 10,003. *)
Theorem decoded_claim_size (data : bytes) (c : Claim.t) :
  Claim.decode data = Return c ->
  0 < WITNESS_SCALE_FACTOR ->
  Claim.getSize c <= 10003 /\
  Claim.getVirtualSize c
    = ceiling_div (Claim.getSize c) WITNESS_SCALE_FACTOR /\
  1 <= Claim.getVirtualSize c <= 10003.
Proof.
  intros Hdec Hs. apply decode_returns in Hdec.
  assert (Hsize : Claim.getSize c <= 10003).
  { unfold Claim.getSize, bio.sizeVarBytes, bio.sizeVarint.
    repeat match goal with
           | |- context [if ?a <? ?b then _ else _] =>
               destruct (Z.ltb_spec a b)
           | |- context [if ?a <=? ?b then _ else _] =>
               destruct (Z.leb_spec a b)
           end; lia. }
  assert (Hfit : Claim.getWeight c + WITNESS_SCALE_FACTOR - 1
                 < 2 ^ 31 * WITNESS_SCALE_FACTOR)
    by (apply small_blob_fits; lia).
  pose proof (getSize_pos c) as Hw.
  rewrite getVirtualSize_div by assumption.
  change (Claim.getWeight c) with (Claim.getSize c).
  set (w := Claim.getSize c) in *. set (s := WITNESS_SCALE_FACTOR) in *.
  pose proof (Z.div_mod (w + s - 1) s ltac:(lia)) as Hdm.
  pose proof (Z.mod_pos_bound (w + s - 1) s Hs) as Hmod.
  split; [exact Hsize|]. split; [|nia].
  symmetry. apply ceiling_div_unique; [exact Hs | nia].
Qed.

End VirtualSize.

Lemma virtual_size_bounds_witness :
  let c := Claim.fromBlob (repeat x00 9) Claim.new in
  0 < @WITNESS_SCALE_FACTOR Demo.collaborators /\
  1 <= @Claim.getVirtualSize Demo.collaborators c <= Claim.getWeight c.
Proof.
  split; [reflexivity|].
  exact (proj1 (@virtual_size_bounds Demo.collaborators
                  (Claim.fromBlob (repeat x00 9) Claim.new)
                  eq_refl eq_refl)).
Defined.

Lemma decoded_claim_size_witness :
  let c := Claim.fromBlob [x61; x62] Claim.new in
  Claim.decode [x02; x61; x62] = Return c /\
  @Claim.getVirtualSize Demo.collaborators c = ceiling_div 3 4.
Proof.
  split; [reflexivity|].
  exact (proj1 (proj2 (@decoded_claim_size Demo.collaborators
                         [x02; x61; x62]
                         (Claim.fromBlob [x61; x62] Claim.new)
                         eq_refl eq_refl))).
Defined.

(** ** Undecodable blobs and Claims that are only queried *)

Section Queried.

Context `{Collaborators}.

(** X19.  On a blob that does not decode, with nothing cached, [getData]
    asks the new, empty proof: it returns whatever data the empty proof
    has for the network, and caches it when there is some. *)
Theorem getData_falls_back_to_empty_proof
        (n : Network) (c : Claim.t) (e : error) :
  Claim._data c = None ->
  OwnershipProof_decode (Claim.blob c) = Throw e ->
  fst (Claim.getData n c)
    = Return (OwnershipProof_getData OwnershipProof_new n) /\
  Claim._data (snd (Claim.getData n c))
    = OwnershipProof_getData OwnershipProof_new n.
Proof.
  intros Hnone Hdec. rewrite getData_run, Hnone. unfold lenient_proof.
  rewrite Hdec.
  destruct (OwnershipProof_getData OwnershipProof_new n);
    split; (reflexivity || exact Hnone).
Qed.

Lemma served_init (b : bytes) : served_from b (Claim.fromBlob_static b).
Proof. repeat split; [now left | discriminate]. Qed.

Lemma served_refresh (b : bytes) (c : Claim.t) :
  served_from b c -> served_from b (Claim.refresh c).
Proof.
  intros (Hb & _). repeat split; [exact Hb | now left | discriminate].
Qed.

Lemma served_hash (b : bytes) (enc : option string) (c : Claim.t) :
  served_from b c -> served_from b (snd (Claim.hash enc c)).
Proof.
  intros (Hb & Hh & Hx & Hd). destruct (hash_keeps enc c) as (Kb & Kh & Kd).
  unfold served_from. rewrite Kb, Kh, Kd. repeat split; try assumption.
  apply (step_keeps_hex_coherent c); try assumption. apply Claim.step_hash.
Qed.

Lemma served_getData (b : bytes) (n : Network) (c : Claim.t) :
  served_from b c -> served_from b (snd (Claim.getData n c)).
Proof.
  intros (Hb & Hh & Hx & Hd). destruct (getData_keeps n c) as (Kb & Kh & Kx).
  unfold served_from. rewrite Kb, Kh. repeat split; try assumption.
  - unfold hex_coherent. rewrite Kx, Kb. exact Hx.
  - rewrite getData_run. destruct (Claim._data c) as [d|] eqn:Ed.
    + cbn [snd]. rewrite Ed. exact Hd.
    + rewrite Hb.
      destruct (OwnershipProof_getData (lenient_proof b) n) as [d|] eqn:Eg;
        cbn [snd Claim.set_data Claim._data].
      * intros data E. inversion E; subst. now exists n.
      * rewrite Ed. discriminate.
Qed.

Lemma queried_served (b : bytes) (c : Claim.t) :
  queried b c -> served_from b c.
Proof.
  induction 1;
    rewrite ?getNameHash_state, ?getFee_state, ?getRate_state, ?toTX_state,
      ?toInv_state;
    auto using served_init, served_refresh, served_hash, served_getData.
Qed.

(** X20.  A Claim built by the static [fromBlob(b)] and then only
    queried, with or without [refresh], never answers from anything but
    [b]: [hash()] is the digest of [b], [hash('hex')] its hex form, and
    [getData] returns either null or the data that the proof of [b] has
    for some network, the one of the first call that found data. *)
Theorem queried_claim_answers_from_its_blob
        (b : bytes) (c : Claim.t) (n : Network) :
  queried b c ->
  Claim.blob c = b /\
  fst (Claim.hash None c) = Return (Raw (Blake2b.digest b)) /\
  fst (Claim.hash (Some "hex"%string) c)
    = Return (Hex (toString_hex (Blake2b.digest b))) /\
  (fst (Claim.getData n c) = Return None \/
   exists n0 data,
     OwnershipProof_getData (lenient_proof b) n0 = Some data /\
     fst (Claim.getData n c) = Return (Some data)).
Proof.
  intros Hq. pose proof (queried_served b c Hq) as Hs.
  pose proof (served_getData b n c Hs) as (_ & _ & _ & Hd').
  destruct Hs as (Hb & Hh & Hx & Hd).
  split; [exact Hb|]. split; [|split].
  - rewrite hash_raw by easy. now rewrite Hb.
  - rewrite hash_hex by assumption. now rewrite Hb.
  - rewrite getData_run in *. destruct (Claim._data c) as [d|] eqn:Ed.
    + right. destruct (Hd d eq_refl) as [n0 Hn0]. now exists n0, d.
    + rewrite Hb in *.
      destruct (OwnershipProof_getData (lenient_proof b) n) as [d|] eqn:Eg;
        [right; now exists n, d | now left].
Qed.

End Queried.

Lemma getData_falls_back_to_empty_proof_witness :
  let c := Claim.fromBlob Demo.corrupt Claim.new in
  Claim._data c = None /\
  @OwnershipProof_decode Demo.collaborators (Claim.blob c)
    = Throw ProofError /\
  fst (@Claim.getData Demo.collaborators tt c) = Return (Demo.getData [] tt).
Proof.
  split; [reflexivity|]. split; [reflexivity|].
  exact (proj1 (@getData_falls_back_to_empty_proof Demo.collaborators tt
                  (Claim.fromBlob Demo.corrupt Claim.new) ProofError
                  eq_refl eq_refl)).
Defined.

Lemma queried_claim_answers_from_its_blob_witness :
  let c := snd (Claim.hash (Some "hex"%string)
                  (Claim.fromBlob_static [x02])) in
  @queried Demo.collaborators [x02] c /\
  fst (Claim.hash (Some "hex"%string) c)
    = Return (Hex (toString_hex (Blake2b.digest [x02]))).
Proof.
  assert (Hq : @queried Demo.collaborators [x02]
                 (snd (Claim.hash (Some "hex"%string)
                         (Claim.fromBlob_static [x02]))))
    by (apply queried_hash, queried_fromBlob).
  split; [exact Hq|].
  exact (proj1 (proj2 (proj2
           (@queried_claim_answers_from_its_blob Demo.collaborators
              [x02] _ tt Hq)))).
Defined.
